(** * CountMamba: the Mamba2 layer of [CountMamba/model_mamba2.py]

    A shallow embedding of the class [Mamba2]: its cache of recurrent
    states, the bulk path [forward_test], the one-step path
    [forward_stage], and the entry points [forward] and
    [forward_evaluate].

    Numbers.  The source computes in float32.  Here a tensor entry is a
    real number and every operation is exact; rounding is not part of
    the model.  Tensors are nested lists, outermost axis first.

    Library calls.  [torch] and [einops] calls are modelled by their
    documented meaning, each next to the place it is used.  The two
    kernels of [mamba_ssm] are not part of the repository:
    [mamba_split_conv1d_scan_combined] is a parameter, and
    [mamba_chunk_scan_combined] is modelled from the description of the
    chunked strategy in the specification. *)

From Stdlib Require Import Reals Lra Lia ZArith QArith Ascii.
From stdpp Require Import base option list strings gmap.

Local Open Scope R_scope.

(** ** Tensors *)

Abbreviation vec := (list R).          (* one axis *)
Abbreviation mat := (list (list R)).   (* two axes *)
Abbreviation tensor3 := (list (list (list R))).
Abbreviation tensor4 := (list (list (list (list R)))).

Definition zeros (n : nat) : vec := replicate n 0.
Definition zeros2 (a b : nat) : mat := replicate a (zeros b).
Definition zeros3 (a b c : nat) : tensor3 := replicate a (zeros2 b c).
Definition zeros4 (a b c d : nat) : tensor4 := replicate a (zeros3 b c d).

(** [torch.sum(_, dim=-1)] of one row. *)
Definition Rsum (l : vec) : R := fold_right Rplus 0 l.

(** Sum over the last axis of an elementwise product: the contraction of
    an [einsum] over one shared index, and a row of [F.linear]. *)
Definition dot (u v : vec) : R := Rsum (zip_with Rmult u v).

(** [nn.Linear(_, _, bias=False)] on one vector of [in_features]
    entries: [x @ W^T].  The shape check of [F.linear], which refuses a
    vector of another width, is [in_features_ok] below; the paths make
    it before they use these values. *)
Definition linear (W : mat) (x : vec) : vec := map (fun row => dot x row) W.

(** Swapping the two axes of a matrix whose rows have [ncols] entries
    ([transpose(1, 2)] and [rearrange "b l d -> b d l"] on one batch item). *)
Definition transpose (ncols : nat) (m : mat) : mat :=
  map (fun c => map (fun row => nth c row 0) m) (seq 0 ncols).

(** [torch.split(v, [a; b; c; d; e], dim=-1)] on one vector. *)
Definition split5 (a b c d e : nat) (v : vec) : vec * vec * vec * vec * vec :=
  let p0 := take a v in let v := drop a v in
  let p1 := take b v in let v := drop b v in
  let p2 := take c v in let v := drop c v in
  let p3 := take d v in let v := drop d v in
  (p0, p1, p2, p3, take e v).

(** [torch.split(v, [a; b; c], dim=-1)] on one vector. *)
Definition split3 (a b c : nat) (v : vec) : vec * vec * vec :=
  let p0 := take a v in let v := drop a v in
  let p1 := take b v in let v := drop b v in
  (p0, p1, take c v).

(** [rearrange(x, "(h p) -> h p", p=p)]. *)
Definition rearrange_hp (p : nat) (x : vec) : mat :=
  map (fun h => take p (drop (h * p) x)) (seq 0 (length x / p)).

(** Python's [l[:-n]]; [l[:-0]] is [l[:0]], the empty list. *)
Definition slice_to_neg {A} (n : nat) (l : list A) : list A :=
  match n with
  | O => []
  | _ => take (length l - n) l
  end.

(** ** Scalar functions *)

(** [F.softplus] with its defaults [beta=1], [threshold=20]: linear above
    the threshold. *)
Definition softplus (x : R) : R :=
  if Rle_dec x 20 then ln (1 + exp x) else x.

Definition sigmoid (x : R) : R := / (1 + exp (- x)).

(** [nn.SiLU]. *)
Definition silu (x : R) : R := x * sigmoid x.

(** ** The layer *)

(** [RMSNormGated(d, eps, norm_before_gate=False, group_size=d)]. *)
Record RMSNormGated := {
  weight : vec;
  eps : R
}.

(** Modelled from the reference implementation of the external kernel
    (gate first, then variance normalisation over the whole row). *)
Definition rmsnorm_gated (n : RMSNormGated) (y z : vec) : vec :=
  let x := zip_with Rmult y (map silu z) in
  let rstd := / sqrt (Rsum (map (fun v => v * v) x) / INR (length x) + eps n) in
  zip_with Rmult (map (fun v => v * rstd) x) (weight n).

Record Mamba2 := {
  layer_idx : option nat;
  d_model : nat;
  d_state : nat;
  d_conv : nat;
  expand : nat;
  headdim : nat;
  chunk_size : nat;
  in_proj_weight : mat;     (* d_in_proj x d_model *)
  conv1d_weight : mat;      (* conv_dim x d_conv, after "d 1 w -> d w" *)
  conv1d_bias : vec;        (* conv_dim *)
  dt_bias : vec;            (* nheads *)
  A_log : vec;              (* nheads *)
  D : vec;                  (* nheads *)
  norm : RMSNormGated;
  out_proj_weight : mat     (* d_model x d_inner *)
}.

Definition d_inner (self : Mamba2) : nat := (expand self * d_model self)%nat.
Definition nheads (self : Mamba2) : nat := (d_inner self / headdim self)%nat.
Definition d_in_proj (self : Mamba2) : nat :=
  (2 * d_inner self + 2 * d_state self + nheads self)%nat.
Definition conv_dim (self : Mamba2) : nat :=
  (d_inner self + 2 * d_state self)%nat.

(** The shapes [__init__] gives to the parameters. *)
Record wf (self : Mamba2) : Prop := {
  wf_heads : d_inner self = (nheads self * headdim self)%nat;
  wf_in_proj : length (in_proj_weight self) = d_in_proj self;
  wf_conv_w : length (conv1d_weight self) = conv_dim self;
  wf_conv_k : Forall (fun w => length w = d_conv self) (conv1d_weight self);
  wf_conv_b : length (conv1d_bias self) = conv_dim self;
  wf_dt_bias : length (dt_bias self) = nheads self;
  wf_A_log : length (A_log self) = nheads self;
  wf_D : length (D self) = nheads self
}.

(** ** The cache *)

(** [inference_params.key_value_memory_dict]: per layer, the pair
    (conv_state, ssm_state).  conv_state is batch x conv_dim x d_conv,
    ssm_state is batch x nheads x headdim x d_state. *)
Record InferenceParams := {
  key_value_memory_dict : gmap nat (tensor3 * tensor4)
}.

Inductive exn := AssertionError | AttributeError | RuntimeError | IndexError.

Inductive result (A : Type) :=
| Ok (a : A)
| Raise (e : exn).
Arguments Ok {A} a.
Arguments Raise {A} e.

(** State and exceptions: the state is the [inference_params] argument
    itself, [None] when the caller passes Python's [None]. *)
Definition M (A : Type) : Type :=
  option InferenceParams -> result A * option InferenceParams.

Definition ret {A} (a : A) : M A := fun s => (Ok a, s).
Definition raise {A} (e : exn) : M A := fun s => (Raise e, s).
Definition bind {A B} (m : M A) (k : A -> M B) : M B :=
  fun s =>
    match m s with
    | (Ok a, s') => k a s'
    | (Raise e, s') => (Raise e, s')
    end.

Notation "'let*' x ':=' m 'in' k" := (bind m (fun x => k))
  (at level 10, x pattern, m at level 100, k at level 200).

(** In-place writes ([copy_], item assignment) to the two tensors that
    the dictionary entry of this layer holds: the entry sees them. *)
Definition write_states (self : Mamba2) (st : tensor3 * tensor4) : M unit :=
  fun inference_params =>
    match layer_idx self, inference_params with
    | Some l, Some ip =>
        (Ok tt, Some {| key_value_memory_dict := <[l := st]> (key_value_memory_dict ip) |})
    | None, _ => (Raise AssertionError, inference_params)
    | _, None => (Raise AttributeError, None)
    end.

Definition _get_states_from_cache (self : Mamba2) (batch_size : nat)
  : M (tensor3 * tensor4) :=
  fun inference_params =>
    match layer_idx self with
    | None => (Raise AssertionError, inference_params)
    | Some l =>
        match inference_params with
        | None => (Raise AttributeError, None)
        | Some ip =>
            match key_value_memory_dict ip !! l with
            | None =>
                let conv_state :=
                  map (transpose (length (conv1d_weight self)))
                      (zeros3 batch_size (d_conv self) (length (conv1d_weight self))) in
                let ssm_state :=
                  zeros4 batch_size (nheads self) (headdim self) (d_state self) in
                (Ok (conv_state, ssm_state),
                 Some {| key_value_memory_dict :=
                           <[l := (conv_state, ssm_state)]> (key_value_memory_dict ip) |})
            | Some st => (Ok st, inference_params)
            end
        end
    end.

(** ** The streaming step, [forward_stage] *)

(** The projection and its split, shared by both paths.  The two
    [d_mlp] slices are empty for a projection of width [d_in_proj]. *)
Definition in_proj_split (self : Mamba2) (h : vec) : vec * vec * vec :=
  let zxbcdt := linear (in_proj_weight self) h in
  let d_mlp :=
    Z.to_nat ((Z.of_nat (length zxbcdt) - 2 * Z.of_nat (d_inner self)
               - 2 * Z.of_nat (d_state self) - Z.of_nat (nheads self)) / 2) in
  let '(z0, x0, z, xBC, dt) :=
    split5 d_mlp d_mlp (d_inner self) (d_inner self + 2 * d_state self)
           (nheads self) zxbcdt in
  (z, xBC, dt).

(** [torch.roll(row, shifts=-1)]. *)
Definition roll_left (row : vec) : vec :=
  match row with
  | [] => []
  | a :: t => t ++ [a]
  end.

(** [row[-1] = v]. *)
Definition set_last (row : vec) (v : R) : vec :=
  <[pred (length row) := v]> row.

(** "# Conv step", for one batch item: the new window and the activated
    output. *)
Definition conv_step (self : Mamba2) (conv_state : mat) (xBC : vec) : mat * vec :=
  let conv_state := map roll_left conv_state in
  let conv_state := zip_with set_last conv_state xBC in
  let xBC := map Rsum (zip_with (zip_with Rmult) conv_state (conv1d_weight self)) in
  let xBC := zip_with Rplus xBC (conv1d_bias self) in
  let xBC := map silu xBC in
  (conv_state, xBC).

(** [A = -torch.exp(self.A_log.float())]. *)
Definition A_of (self : Mamba2) : vec := map (fun a => - exp a) (A_log self).

(** [dt = F.softplus(dt + dt_bias)]. *)
Definition ssm_dt (dt_bias dt : vec) : vec := map softplus (zip_with Rplus dt dt_bias).

(** [dA = torch.exp(dt * A)]. *)
Definition ssm_dA (A dt : vec) : vec := map exp (zip_with Rmult dt A).

(** [dBx = einsum("h,n,hp->hpn", dt, B, x)]. *)
Definition ssm_dBx (dt B : vec) (x : mat) : tensor3 :=
  zip_with (fun dth xh => map (fun xp => map (fun bn => dth * bn * xp) B) xh) dt x.

(** [ssm_state * rearrange(dA, "h -> h 1 1")]. *)
Definition st_scale (dA : vec) (S : tensor3) : tensor3 :=
  zip_with (fun Sh a => map (map (fun s => s * a)) Sh) S dA.

Definition st_add (S T : tensor3) : tensor3 :=
  zip_with (zip_with (zip_with Rplus)) S T.

(** [einsum("hpn,n->hp", S, C)]. *)
Definition contract (S : tensor3) (C : vec) : mat :=
  map (map (fun row => dot row C)) S.

(** [rearrange(D, "h -> h 1") * x]. *)
Definition skip (D : vec) (x : mat) : mat :=
  zip_with (fun Dh xh => map (fun xp => Dh * xp) xh) D x.

Definition hp_add (y y' : mat) : mat := zip_with (zip_with Rplus) y y'.

(** "# SSM step", for one batch item ([x] already split into heads): the
    new state and [y]. *)
Definition ssm_update (A dt_bias D : vec) (ssm_state : tensor3)
    (dt : vec) (x : mat) (B C : vec) : tensor3 * mat :=
  let dt := ssm_dt dt_bias dt in
  let dA := ssm_dA A dt in
  let dBx := ssm_dBx dt B x in
  let ssm_state := st_add (st_scale dA ssm_state) dBx in
  let y := contract ssm_state C in
  let y := hp_add y (skip D x) in
  (ssm_state, y).

Definition ssm_step (self : Mamba2) (ssm_state : tensor3)
    (dt x B C : vec) : tensor3 * mat :=
  let A := A_of self in
  let x := rearrange_hp (headdim self) x in
  ssm_update A (dt_bias self) (D self) ssm_state dt x B C.

(** The body of [forward_stage] on one batch item. *)
Definition forward_stage_item (self : Mamba2) (h : vec)
    (conv_state : mat) (ssm_state : tensor3) : vec * mat * tensor3 :=
  let '(z, xBC, dt) := in_proj_split self h in
  let '(conv_state, xBC) := conv_step self conv_state xBC in
  let '(x, B, C) := split3 (d_inner self) (d_state self) (d_state self) xBC in
  let '(ssm_state, y) := ssm_step self ssm_state dt x B C in
  let y := concat y in
  let y := rmsnorm_gated (norm self) y z in
  let out := linear (out_proj_weight self) y in
  (out, conv_state, ssm_state).

(** [hidden_states.squeeze(1)] on one batch item of a b x 1 x d tensor. *)
Definition squeeze1 (s : mat) : option vec :=
  match s with
  | [h] => Some h
  | _ => None
  end.

(** Zip three batch axes of equal length; [None] when they differ. *)
Fixpoint batch3 {A B C E} (f : A -> B -> C -> option E)
    (la : list A) (lb : list B) (lc : list C) : option (list E) :=
  match la, lb, lc with
  | [], [], [] => Some []
  | a :: la, b :: lb, c :: lc =>
      match f a b c, batch3 f la lb lc with
      | Some e, Some r => Some (e :: r)
      | _, _ => None
      end
  | _, _, _ => None
  end.

(** Shapes, as the shape checks of torch decide them. *)
Definition has_shape2 (a b : nat) (m : mat) : bool :=
  (length m =? a)%nat && forallb (fun r => (length r =? b)%nat) m.

Definition has_shape3 (a b c : nat) (t : tensor3) : bool :=
  (length t =? a)%nat && forallb (has_shape2 b c) t.

(** The shape check of [self.in_proj(t)]: [F.linear] accepts [t] when
    its last axis has [d_model] entries, the [in_features] of the
    projection, and raises [RuntimeError] otherwise.  On an accepted
    vector the values are those of [linear]. *)
Definition in_features_ok (self : Mamba2) (t : tensor3) : bool :=
  forallb (forallb (fun h => (length h =? d_model self)%nat)) t.

(** One batch item of [forward_stage] from line 186 on: the time axis
    has one entry and the two cached tensors have the shapes of the
    layer. *)
Definition stage_item (self : Mamba2) (s : mat) (conv_state : mat)
    (ssm_state : tensor3) : option (vec * mat * tensor3) :=
  h ← squeeze1 s;
  if has_shape2 (conv_dim self) (d_conv self) conv_state
     && has_shape3 (nheads self) (headdim self) (d_state self) ssm_state
  then Some (forward_stage_item self h conv_state ssm_state)
  else None.

(** [forward_stage].  [hidden_states] is batch x 1 x d_model.  In the
    order of the source:
    - line 173 takes the entry of the layer, allocating it when absent;
    - line 176, [self.in_proj], raises [RuntimeError] when a vector is
      not of width [d_model]; the cache is then as line 173 left it;
    - line 185 writes the rolled window into the cached tensor, so a
      failure after it leaves the rolled window in the cache;
    - line 186, [conv_state[:, :, -1] = xBC], raises [IndexError] for a
      window of width 0 and [RuntimeError] when the batch axes of
      [hidden_states] and of the window differ or the time axis is not
      of length 1;
    - the rest computes and writes both tensors.
    The entry has the shapes the layer gives it at line 173 and keeps
    them.  An entry of other shapes can only have been put into the
    dictionary by the caller; what torch's broadcasting makes of it is
    outside this model, which reports it as [RuntimeError] at line
    186. *)
Definition forward_stage (self : Mamba2) (hidden_states : tensor3) : M tensor3 :=
  let* (conv_state, ssm_state) := _get_states_from_cache self 1 in
  if negb (in_features_ok self hidden_states) then raise RuntimeError
  else
    let* _ := write_states self (map (map roll_left) conv_state, ssm_state) in
    if (d_conv self =? 0)%nat then raise IndexError
    else
      match batch3 (stage_item self) hidden_states conv_state ssm_state with
      | Some r =>
          let* _ := write_states self (map (fun o => o.1.2) r, map (fun o => o.2) r) in
          ret (map (fun o => [o.1.1]) r)
      | None => raise RuntimeError
      end.

(** ** The chunked scan *)

(** One timestep as the scan sees it, after discretisation. *)
Record scan_step := {
  s_dA : vec;        (* decay, per head *)
  s_dBx : tensor3;   (* input to the state, h x p x n *)
  s_C : vec;
  s_Dx : mat         (* skip term D * x, h x p *)
}.

Definition discretize (A dt_bias D : vec) (i : mat * vec * vec * vec) : scan_step :=
  let '(x, dt, B, C) := i in
  let dt := ssm_dt dt_bias dt in
  {| s_dA := ssm_dA A dt; s_dBx := ssm_dBx dt B x; s_C := C; s_Dx := skip D x |}.

Definition vmul (a b : vec) : vec := zip_with Rmult a b.

Definition hp_scale (a : vec) (y : mat) : mat :=
  zip_with (fun yh ah => map (fun v => v * ah) yh) y a.

(** Split into consecutive chunks of [n] steps; the last may be shorter. *)
Fixpoint chunks_fuel {A} (fuel n : nat) (l : list A) : list (list A) :=
  match fuel with
  | O => []
  | S fuel =>
      match l with
      | [] => []
      | _ => take n l :: chunks_fuel fuel n (drop n l)
      end
  end.

Definition chunks {A} (n : nat) (l : list A) : list (list A) :=
  chunks_fuel (length l) n l.

Section ChunkScan.
(** The sizes of the state: heads, head dimension, state dimension. *)
Variables (H P N : nat).

(** The product of the decays of a run of steps. *)
Definition chunk_decay (c : list scan_step) : vec :=
  fold_right vmul (replicate H 1) (map s_dA c).

(** The state a run of steps builds from zero, in closed form: every
    input weighted by the decays of the steps after it. *)
Definition chunk_state (c : list scan_step) : tensor3 :=
  fold_right st_add (zeros3 H P N)
    (imap (fun j s => st_scale (chunk_decay (drop (S j) c)) (s_dBx s)) c).

(** Intra-chunk contribution to the output at position [i], with the
    skip term: it reads the steps of the chunk up to [i] and no state
    from outside. *)
Definition chunk_intra (c : list scan_step) (i : nat) (s : scan_step) : mat :=
  hp_add (contract (chunk_state (take (S i) c)) (s_C s)) (s_Dx s).

(** Contribution of the state entering the chunk at position [i]. *)
Definition chunk_boundary (S_in : tensor3) (c : list scan_step)
    (i : nat) (s : scan_step) : mat :=
  hp_scale (chunk_decay (take (S i) c)) (contract S_in (s_C s)).

(** One chunk: its outputs and the state at its end. *)
Definition chunk_scan (S_in : tensor3) (c : list scan_step) : list mat * tensor3 :=
  (imap (fun i s => hp_add (chunk_intra c i s) (chunk_boundary S_in c i s)) c,
   st_add (st_scale (chunk_decay c) S_in) (chunk_state c)).

(** Chunk after chunk, passing only the boundary state along. *)
Definition chunked_scan (n : nat) (steps : list scan_step) : list mat * tensor3 :=
  fold_left
    (fun acc c => let '(y, S') := chunk_scan acc.2 c in (acc.1 ++ y, S'))
    (chunks n steps) ([], zeros3 H P N).
End ChunkScan.

(** Modelled from the spec: the kernel [mamba_chunk_scan_combined] of
    [mamba_ssm] is missing from the sources.  Its model follows the
    chunked-parallel strategy of the specification: the sequence is cut
    into chunks of [chunk_size] steps, each chunk's intra-chunk
    contribution is a closed form over the chunk, and only the state at
    a chunk boundary is passed from one chunk to the next.  Called as in
    [forward_test]: [dt_softplus=True], [z=None], no initial state,
    [return_final_states=True], one group.  [headdim] and [d_state] are
    the sizes the kernel reads off the shapes of [x] and [B]. *)
Definition mamba_chunk_scan_combined (headdim d_state : nat)
    (x : tensor3) (dt : mat) (A : vec) (B C : mat) (chunk_size : nat)
    (D dt_bias : vec) : tensor3 * tensor3 :=
  chunked_scan (length A) headdim d_state chunk_size
    (map (discretize A dt_bias D) (zip (zip (zip x dt) B) C)).

(** ** The bulk path, [forward_test] *)

(** [F.pad(row, (n, 0))]: [n] zeros on the left, or, for negative [n],
    [-n] entries cut off the left. *)
Definition pad_left (n : Z) (row : vec) : vec :=
  if (0 <=? n)%Z then replicate (Z.to_nat n) 0 ++ row
  else drop (Z.to_nat (- n)) row.

(** One channel of the depthwise [nn.Conv1d] (cross-correlation) with
    [padding] zeros on both sides. *)
Definition conv1d_channel (padding : nat) (w : vec) (b : R) (row : vec) : vec :=
  let xp := replicate padding 0 ++ row ++ replicate padding 0 in
  map (fun t => dot (drop t xp) w + b) (seq 0 (length xp + 1 - length w)).

(** [self.conv1d] on a channels x length matrix. *)
Definition conv1d (self : Mamba2) (input : mat) : mat :=
  zip_with (fun wb row => conv1d_channel (d_conv self - 1) wb.1 wb.2 row)
           (zip (conv1d_weight self) (conv1d_bias self)) input.

(** The body of [forward_test] on one batch item: the output, and the
    two tensors copied into the cached state.  The calls of the body
    that fail (an empty sequence, a kernel of width 0 or 1) are decided
    in [forward_test]; for them only the window, computed before the
    failing call, is used. *)
Definition forward_test_item (self : Mamba2) (u : mat) : mat * mat * tensor3 :=
  let L := length u in
  let zxbcdt := map (in_proj_split self) u in
  let z := map (fun p => p.1.1) zxbcdt in
  let xBC := map (fun p => p.1.2) zxbcdt in
  let dt := map (fun p => p.2) zxbcdt in
  let A := A_of self in
  (* conv state *)
  let xBC_t := transpose (conv_dim self) xBC in
  let conv_state := map (pad_left (Z.of_nat (d_conv self) - Z.of_nat L)) xBC_t in
  let conv_out :=
    transpose (L + 2 * (d_conv self - 1) + 1 - d_conv self)
              (conv1d self (transpose (conv_dim self) xBC)) in
  let xBC := map (map silu) (slice_to_neg (d_conv self - 1) conv_out) in
  let xs := map (split3 (d_inner self) (d_state self) (d_state self)) xBC in
  let x := map (fun p => p.1.1) xs in
  let B := map (fun p => p.1.2) xs in
  let C := map (fun p => p.2) xs in
  let '(y, last_state) :=
    mamba_chunk_scan_combined (headdim self) (d_state self)
      (map (rearrange_hp (headdim self)) x) dt A B C
      (chunk_size self) (D self) (dt_bias self) in
  (* ssm state *)
  let y := map (fun yl : mat => concat yl) y in
  let y := zip_with (rmsnorm_gated (norm self)) y z in
  let out := map (linear (out_proj_weight self)) y in
  (out, conv_state, last_state).

(** [u.shape[1]]. *)
Definition shape1 (u : tensor3) : nat :=
  match u with
  | [] => O
  | s :: _ => length s
  end.

(** One batch item of [forward_test] from line 125 on: the two cached
    tensors have the shapes of the tensors copied into them. *)
Definition test_item (self : Mamba2) (s : mat) (conv_state : mat)
    (ssm_state : tensor3) : option (mat * mat * tensor3) :=
  if has_shape2 (conv_dim self) (d_conv self) conv_state
     && has_shape3 (nheads self) (headdim self) (d_state self) ssm_state
  then Some (forward_test_item self s)
  else None.

(** [forward_test].  [u] is batch x length x d_model.  In the order of
    the source:
    - line 112 takes the entry of the layer, allocating it when absent;
    - line 113, [self.in_proj], raises [RuntimeError] when a vector is
      not of width [d_model];
    - line 125, [conv_state.copy_], raises [RuntimeError] when the batch
      axes of [u] and of the cached window differ; up to here the cache
      is as line 112 left it.  Then the window is written, so a failure
      after it leaves the new window with the old SSM state;
    - line 128, [self.conv1d], raises [RuntimeError] on a sequence of
      length 0, and for a kernel of width 0, whose padding is negative;
    - for a kernel of width 1 the slice [[:, :-(d_conv - 1)]] is
      [[:, :-0]] and leaves no position, and the scan kernel, which
      asserts that [x] and [dt] have one sequence length, raises
      [AssertionError];
    - line 151 writes the final state of the scan.
    Entries of other shapes than the layer's are treated as in
    [forward_stage]: [RuntimeError] at line 125. *)
Definition forward_test (self : Mamba2) (u : tensor3) : M tensor3 :=
  let* (conv_state, ssm_state) := _get_states_from_cache self 1 in
  if negb (in_features_ok self u) then raise RuntimeError
  else
    match batch3 (test_item self) u conv_state ssm_state with
    | Some r =>
        let* _ := write_states self (map (fun o => o.1.2) r, ssm_state) in
        if (d_conv self =? 0)%nat || (shape1 u =? 0)%nat then raise RuntimeError
        else if (d_conv self =? 1)%nat then raise AssertionError
        else
          let* _ := write_states self (map (fun o => o.1.2) r, map (fun o => o.2) r) in
          ret (map (fun o => o.1.1) r)
    | None => raise RuntimeError
    end.

(** ** Entry points *)

(** [range(a, b)]. *)
Definition range (a b : nat) : list nat := seq a (b - a).

(** [for i in idx: out = body(i)]. *)
Fixpoint for_each {A} (idx : list nat) (body : nat -> M A) (out : A) : M A :=
  match idx with
  | [] => ret out
  | i :: idx => let* out := body i in for_each idx body out
  end.

Definition forward_evaluate (self : Mamba2) (u : tensor3) : M tensor3 :=
  let start_position := shape1 u in
  let u0 := map (take start_position) u in
  let* out := forward_test self u0 in
  for_each (range start_position (shape1 u))
    (fun i => forward_stage self (map (fun s => take 1 (drop i s)) u)) out.

(** A call that is not handed [inference_params]: its value or its
    exception, and the state as it was. *)
Definition call {A} (r : result A) : M A := fun s => (r, s).

Section Forward.
(** The fused kernel of [mamba_ssm] behind the training path, with the
    arguments [forward_train] passes that are not constants.  It returns
    a tensor or raises. *)
Variable mamba_split_conv1d_scan_combined :
  tensor3 -> mat -> vec -> vec -> vec -> vec -> nat -> vec -> R -> mat -> nat
  -> result tensor3.

(** [forward_train].  It has no [inference_params]; line 65,
    [self.in_proj], raises [RuntimeError] as in the other paths. *)
Definition forward_train (self : Mamba2) (u : tensor3) : result tensor3 :=
  if negb (in_features_ok self u) then Raise RuntimeError
  else
    let zxbcdt := map (map (linear (in_proj_weight self))) u in
    let A := A_of self in
    mamba_split_conv1d_scan_combined zxbcdt (conv1d_weight self)
      (conv1d_bias self) (dt_bias self) A (D self) (chunk_size self)
      (weight (norm self)) (eps (norm self)) (out_proj_weight self)
      (headdim self).

Definition forward (self : Mamba2) (u : tensor3) : M tensor3 :=
  let* out := call (forward_train self u) in
  ret out.
End Forward.

(** ** Runs, shapes and examples used in the statements *)


(** The sequential scan: [ssm_update] one timestep after the other. *)
Fixpoint sequential_scan (A dt_bias D : vec) (ssm_state : tensor3)
    (steps : list (mat * vec * vec * vec)) : list mat * tensor3 :=
  match steps with
  | [] => ([], ssm_state)
  | (x, dt, B, C) :: steps =>
      let '(ssm_state, y) := ssm_update A dt_bias D ssm_state dt x B C in
      let '(ys, ssm_state) := sequential_scan A dt_bias D ssm_state steps in
      (y :: ys, ssm_state)
  end.

(** Entry (h, p, n) of a state, entry (h, p) of a matrix. *)
Definition get3 (S : tensor3) (h p n : nat) : R := nth n (nth p (nth h S []) []) 0.
Definition get2 (y : mat) (h p : nat) : R := nth p (nth h y []) 0.


(** A small layer: one input channel, two heads of dimension one, state
    dimension one, kernel width two. *)
Definition ex_layer : Mamba2 := {|
  layer_idx := Some 0%nat;
  d_model := 1; d_state := 1; d_conv := 2; expand := 2; headdim := 1;
  chunk_size := 2;
  in_proj_weight := replicate 8 [1];
  conv1d_weight := replicate 4 [1; 1];
  conv1d_bias := zeros 4;
  dt_bias := [0; 0];
  A_log := [0; 0];
  D := [1; 1];
  norm := {| weight := [1; 1]; eps := 1 |};
  out_proj_weight := [[1; 1]]
|}.

Definition ex_cache : InferenceParams := {| key_value_memory_dict := ∅ |}.

(** A cache that holds the zero state of the small layer. *)
Definition ex_cache_zero : InferenceParams :=
  {| key_value_memory_dict :=
       {[ 0%nat := ([zeros2 (conv_dim ex_layer) (d_conv ex_layer)],
                   [zeros3 (nheads ex_layer) (headdim ex_layer) (d_state ex_layer)]) ]} |}.

(** A state of shape h x p x n. *)
Definition shaped (h p n : nat) (S : tensor3) : Prop :=
  length S = h /\ Forall (fun Sh => length Sh = p /\ Forall (fun r => length r = n) Sh) S.

(** A matrix of shape h x p. *)
Definition shaped2 (h p : nat) (x : mat) : Prop :=
  length x = h /\ Forall (fun r => length r = p) x.

(** A cached entry of batch size one with the shapes of the layer. *)
Definition entry_shaped (self : Mamba2) (st : tensor3 * tensor4) : Prop :=
  exists cs ss,
    st = ([cs], [ss])
    /\ shaped2 (conv_dim self) (d_conv self) cs
    /\ shaped (nheads self) (headdim self) (d_state self) ss.

(** The entry of a layer is absent, or is such an entry: the two cases a
    cache is in that only this layer's calls have written to. *)
Definition entry_ok (self : Mamba2) (l : nat) (ip : InferenceParams) : Prop :=
  key_value_memory_dict ip !! l = None
  \/ exists st, key_value_memory_dict ip !! l = Some st /\ entry_shaped self st.

(** A sequence the layer accepts: every vector of width [d_model]. *)
Definition model_width (self : Mamba2) (u : mat) : Prop :=
  Forall (fun h => length h = d_model self) u.

(** The recurrence run one discretised step after the other. *)
Fixpoint run_steps (ssm_state : tensor3) (steps : list scan_step)
  : list mat * tensor3 :=
  match steps with
  | [] => ([], ssm_state)
  | s :: steps =>
      let ssm_state := st_add (st_scale (s_dA s) ssm_state) (s_dBx s) in
      let y := hp_add (contract ssm_state (s_C s)) (s_Dx s) in
      let '(ys, final) := run_steps ssm_state steps in
      (y :: ys, final)
  end.

(** A discretised step for a state of shape h x p x n. *)
Definition step_shaped (h p n : nat) (s : scan_step) : Prop :=
  length (s_dA s) = h /\ shaped h p n (s_dBx s).

(** A raw timestep (x, dt, B, C) of the scan for such a state. *)
Definition input_shaped (h p n : nat) (i : mat * vec * vec * vec) : Prop :=
  let '(x, dt, B, C) := i in
  shaped2 h p x /\ length dt = h /\ length B = n.

(** The convolution window after the conv inputs [X] (length x
    conv_dim), from the zero window: per channel the last d_conv entries
    of d_conv zeros followed by the channel's inputs. *)
Definition window_after (self : Mamba2) (X : mat) : mat :=
  map (fun c => drop (length X)
                  (zeros (d_conv self) ++ map (fun row => nth c row 0) X))
      (seq 0 (conv_dim self)).

(** The convolution of the bulk path, as [forward_test] computes it. *)
Definition bulk_conv (self : Mamba2) (xBC : mat) : mat :=
  map (map silu)
      (slice_to_neg (d_conv self - 1)
         (transpose (length xBC + 2 * (d_conv self - 1) + 1 - d_conv self)
                    (conv1d self (transpose (conv_dim self) xBC)))).

(** One batch item stepped through [forward_stage_item]. *)
Fixpoint stream_item (self : Mamba2) (conv_state : mat) (ssm_state : tensor3)
    (u : mat) : mat * mat * tensor3 :=
  match u with
  | [] => ([], conv_state, ssm_state)
  | h :: u =>
      let '(out, conv_state, ssm_state) :=
        forward_stage_item self h conv_state ssm_state in
      let '(outs, conv_state, ssm_state) :=
        stream_item self conv_state ssm_state u in
      (out :: outs, conv_state, ssm_state)
  end.

(** The timestep the scan reads at one position: the convolution output
    [c] split into x, B, C, and the timestep logits [dt]. *)
Definition scan_input (self : Mamba2) (c dt : vec) : mat * vec * vec * vec :=
  let s := split3 (d_inner self) (d_state self) (d_state self) c in
  (rearrange_hp (headdim self) s.1.1, dt, s.1.2, s.2).



(** * The padding simulator's driver, [defense/wtfpad/main.py]

    The simulator itself ([adaptive], [overheads], [pparser]) is not part
    of these sources; what is modelled is what [main] and
    [parse_arguments] do on their own. *)

Module Wtfpad.

(** [s.split(sep)] for a separator of one character: never empty. *)
Fixpoint split (sep : Ascii.ascii) (s : string) : list string :=
  match s with
  | EmptyString => [EmptyString]
  | String c s' =>
      if Ascii.eqb c sep then EmptyString :: split sep s'
      else match split sep s' with
           | piece :: rest => String c piece :: rest
           | [] => [String c EmptyString]
           end
  end.

(** [c in s] for a string [c] of one character. *)
Fixpoint contains (c : Ascii.ascii) (s : string) : bool :=
  match s with
  | EmptyString => false
  | String a s' => Ascii.eqb a c || contains c s'
  end.

(** [filename.split("/")[-1]]. *)
Definition fname (filename : string) : string :=
  List.last (split "/"%char filename) EmptyString.

(** [[filename for filename in filenames if "-" in filename.split("/")[-1]]]. *)
Definition cw_filenames (filenames : list string) : list string :=
  List.filter (fun filename => contains "-"%char (fname filename)) filenames.

(** [[... if "-" not in filename.split("/")[-1]]]. *)
Definition ow_filenames (filenames : list string) : list string :=
  List.filter (fun filename => negb (contains "-"%char (fname filename))) filenames.

(** The traces in the order the loop of [main] simulates them:
    [cw_filenames + ow_filenames]. *)
Definition simulation_order (filenames : list string) : list string :=
  cw_filenames filenames ++ ow_filenames filenames.

Inductive error := KeyError (key : string).

Inductive outcome (A : Type) :=
| Return (a : A)
| Fail (e : error).
Arguments Return {A} a.
Arguments Fail {A} e.

(** The end of [parse_arguments]: the section chosen on the command
    line, then [dict(config, **conf_parser._sections['normal_rcv'])].
    [sections] is [conf_parser._sections]. *)
Definition select_config (sections : gmap string (gmap string string))
    (section : string) : outcome (gmap string string) :=
  match sections !! section with
  | None => Fail (KeyError section)
  | Some config =>
      match sections !! "normal_rcv"%string with
      | None => Fail (KeyError "normal_rcv"%string)
      | Some defaults => Return (defaults ∪ config)
      end
  end.

End Wtfpad.

(** * The driver on arrays, [defense_npz/wtfpad/main.py]

    A row of [X] is a list of (timestamp, signed length) pairs, padded
    with all-zero rows.  Finite floats are rationals; the stores into the
    float32 array are taken to be exact. *)

Module Packet.
(** [pparser.Packet(timestamp, direction, length)]. *)
Record Packet := {
  timestamp : Q;
  direction : Z;
  length : Z
}.
End Packet.

Module WtfpadNpz.

Inductive error := ZeroDivisionError | IndexError.

Inductive outcome (A : Type) :=
| Return (a : A)
| Fail (e : error).
Arguments Return {A} a.
Arguments Fail {A} e.

(** [int(x)] of a float: truncation toward zero. *)
Definition int (x : Q) : Z := Z.quot (Qnum x) (Zpos (Qden x)).

(** The loop that parses one row [p] of [X] into a trace, from the trace
    built so far. *)
Fixpoint parse_rows (p : list (Q * Q)) (trace : list Packet.Packet)
  : outcome (list Packet.Packet) :=
  match p with
  | [] => Return trace
  | (timestamp, length) :: p =>
      if Qeq_bool timestamp 0%Q && Qeq_bool length 0%Q then Return trace
      else
        if (Z.abs (int length) =? 0)%Z then Fail ZeroDivisionError
        else
          let direction := (int length / Z.abs (int length))%Z in
          parse_rows p
            (trace ++ [{| Packet.timestamp := timestamp;
                          Packet.direction := direction;
                          Packet.length := Z.abs (int length) |}])
  end.

Definition parse (p : list (Q * Q)) : outcome (list Packet.Packet) :=
  parse_rows p [].

(** What the second loop stores for one packet. *)
Definition stored (pk : Packet.Packet) : Q * Q :=
  (Packet.timestamp pk, inject_Z (Packet.direction pk * Packet.length pk)).

(** The loop that writes the simulated trace into [key_array[count]],
    from index [i] on; [row] is [key_array[count]], of
    [key_array.shape[1]] entries. *)
Fixpoint write_rows (simulated : list Packet.Packet) (i : nat)
    (row : list (Q * Q)) : outcome (list (Q * Q)) :=
  match simulated with
  | [] => Return row
  | pk :: simulated =>
      if (i <? List.length row)%nat then
        let row := <[i := stored pk]> row in
        if (Z.of_nat i =? Z.of_nat (List.length row) - 1)%Z then Return row
        else write_rows simulated (S i) row
      else Fail IndexError
  end.

(** One row of the fresh [key_array], all zeros, filled from a trace. *)
Definition write (width : nat) (simulated : list Packet.Packet)
  : outcome (list (Q * Q)) :=
  write_rows simulated 0 (replicate width (0%Q, 0%Q)).

(** A packet as [parse] builds them. *)
Definition valid (pk : Packet.Packet) : Prop :=
  (Packet.direction pk = 1 \/ Packet.direction pk = -1)%Z
  /\ (1 <= Packet.length pk)%Z.

(** The all-zero row that ends the packets of a row of [X]. *)
Definition is_padding (r : Q * Q) : bool :=
  Qeq_bool r.1 0%Q && Qeq_bool r.2 0%Q.

(** The packet the parsing loop appends for one row. *)
Definition packet_of (r : Q * Q) : Packet.Packet :=
  {| Packet.timestamp := r.1;
     Packet.direction := (int r.2 / Z.abs (int r.2))%Z;
     Packet.length := Z.abs (int r.2) |}.

End WtfpadNpz.

(** * Proofs *)

(** ** The monad *)

Lemma bind_ret_r {A} (m : M A) s : bind m ret s = m s.
Proof. unfold bind, ret. destruct (m s) as [[a|e] s']; reflexivity. Qed.

Lemma bind_Ok {A B} (m : M A) (k : A -> M B) s a s' :
  m s = (Ok a, s') -> bind m k s = k a s'.
Proof. intros E. unfold bind. rewrite E. reflexivity. Qed.

Lemma bind_Raise {A B} (m : M A) (k : A -> M B) s e s' :
  m s = (Raise e, s') -> bind m k s = (Raise e, s').
Proof. intros E. unfold bind. rewrite E. reflexivity. Qed.

(** ** Zero tensors *)

Lemma nth_zeros n c : nth c (zeros n) 0 = 0.
Proof.
  unfold zeros. revert c. induction n as [|n IH]; intros [|c]; simpl; auto.
Qed.

Lemma transpose_zeros2 a b : transpose b (zeros2 a b) = zeros2 b a.
Proof.
  unfold transpose, zeros2.
  assert (E : forall c, map (fun row : vec => nth c row 0) (replicate a (zeros b))
                        = zeros a).
  { intros c. unfold zeros at 2. induction a as [|a IH]; simpl; [reflexivity|].
    rewrite nth_zeros, IH. reflexivity. }
  transitivity (replicate (length (seq 0 b)) (zeros a));
    [|by rewrite length_seq].
  induction (seq 0 b) as [|c idx IH]; simpl; [reflexivity|].
  rewrite E, IH. reflexivity.
Qed.

Lemma transpose_zeros3 n a b :
  map (transpose b) (zeros3 n a b) = zeros3 n b a.
Proof.
  unfold zeros3. induction n as [|n IH]; simpl; [reflexivity|].
  rewrite transpose_zeros2, IH. reflexivity.
Qed.

(** ** The cache: [_get_states_from_cache] *)

Lemma get_states_absent self batch_size ip l :
  layer_idx self = Some l ->
  key_value_memory_dict ip !! l = None ->
  let st := (zeros3 batch_size (length (conv1d_weight self)) (d_conv self),
             zeros4 batch_size (nheads self) (headdim self) (d_state self)) in
  _get_states_from_cache self batch_size (Some ip)
  = (Ok st, Some {| key_value_memory_dict := <[l := st]> (key_value_memory_dict ip) |}).
Proof.
  intros Hl Hn. unfold _get_states_from_cache. rewrite Hl, Hn.
  rewrite transpose_zeros3. reflexivity.
Qed.

Lemma get_states_present self batch_size ip l st :
  layer_idx self = Some l ->
  key_value_memory_dict ip !! l = Some st ->
  _get_states_from_cache self batch_size (Some ip) = (Ok st, Some ip).
Proof.
  intros Hl Hs. unfold _get_states_from_cache. rewrite Hl, Hs. reflexivity.
Qed.

(** C9.  On a layer with no entry, [_get_states_from_cache] stores and
    returns an all-zero state, the convolution window of shape batch x
    conv_dim x d_conv and the SSM state of shape batch x nheads x
    headdim x d_state, and leaves the other layers' entries alone; on a
    layer with an entry it returns that entry and changes nothing; so a
    second call returns what the first returned and leaves the cache as
    the first left it. *)
Theorem get_states_from_cache_begin self batch_size batch_size' ip l :
  layer_idx self = Some l ->
  (key_value_memory_dict ip !! l = None ->
   exists ip',
     _get_states_from_cache self batch_size (Some ip)
     = (Ok (zeros3 batch_size (length (conv1d_weight self)) (d_conv self),
            zeros4 batch_size (nheads self) (headdim self) (d_state self)),
        Some ip')
     /\ key_value_memory_dict ip' !! l
        = Some (zeros3 batch_size (length (conv1d_weight self)) (d_conv self),
                zeros4 batch_size (nheads self) (headdim self) (d_state self))
     /\ forall l', l' <> l ->
          key_value_memory_dict ip' !! l' = key_value_memory_dict ip !! l')
  /\ (forall st, key_value_memory_dict ip !! l = Some st ->
        _get_states_from_cache self batch_size (Some ip) = (Ok st, Some ip))
  /\ (forall st ip',
        _get_states_from_cache self batch_size (Some ip) = (Ok st, ip') ->
        _get_states_from_cache self batch_size' ip' = (Ok st, ip')).
Proof.
  intros Hl. split; [|split].
  - intros Hn. eexists. split; [apply (get_states_absent _ _ _ _ Hl Hn)|].
    simpl. split.
    + apply lookup_insert_eq.
    + intros l' Hne. apply lookup_insert_ne. congruence.
  - intros st Hs. apply (get_states_present _ _ _ _ _ Hl Hs).
  - intros st ip'. destruct (key_value_memory_dict ip !! l) as [st0|] eqn:E.
    + rewrite (get_states_present _ _ _ _ _ Hl E). intros [= <- <-].
      apply (get_states_present _ _ _ _ _ Hl E).
    + rewrite (get_states_absent _ _ _ _ Hl E). intros [= <- <-].
      apply (get_states_present _ _ _ l); [exact Hl|]. simpl.
      apply lookup_insert_eq.
Qed.

(** ** Lists read by position *)

Lemma nth_zip_with {A B C} (f : A -> B -> C) l k i da db dc :
  (i < length l)%nat -> (i < length k)%nat ->
  nth i (zip_with f l k) dc = f (nth i l da) (nth i k db).
Proof.
  revert k i. induction l as [|a l IH]; intros [|b k] [|i]; simpl; intros; try lia;
    [reflexivity|]. apply IH; lia.
Qed.

Lemma nth_map_lt {A B} (f : A -> B) l i da db :
  (i < length l)%nat -> nth i (map f l) db = f (nth i l da).
Proof.
  revert i. induction l as [|a l IH]; intros [|i]; simpl; intros; try lia;
    [reflexivity|]. apply IH; lia.
Qed.

Lemma zip_with_seq {A B C} (f : A -> B -> C) l k da db n :
  length l = n -> length k = n ->
  zip_with f l k = map (fun i => f (nth i l da) (nth i k db)) (seq 0 n).
Proof.
  revert k n. induction l as [|a l IH]; intros [|b k] [|n]; simpl; intros;
    try lia; [reflexivity|].
  f_equal. rewrite <- seq_shift, map_map. apply IH; lia.
Qed.

Lemma shaped_nth h p n S i :
  shaped h p n S -> (i < h)%nat -> length (nth i S []) = p.
Proof.
  intros [HL HF] Hi. rewrite Forall_forall in HF.
  apply HF, list_elem_of_In, nth_In. lia.
Qed.

Lemma shaped_nth2 h p n S i j :
  shaped h p n S -> (i < h)%nat -> (j < p)%nat ->
  length (nth j (nth i S []) []) = n.
Proof.
  intros [HL HF] Hi Hj. rewrite Forall_forall in HF.
  destruct (HF (nth i S [])) as [Hp Hr].
  { apply list_elem_of_In, nth_In. lia. }
  rewrite Forall_forall in Hr. apply Hr, list_elem_of_In, nth_In. lia.
Qed.

(** ** The convolution step *)

Lemma set_last_roll_left o p v : set_last (roll_left (o :: p)) v = p ++ [v].
Proof.
  unfold set_last, roll_left. rewrite length_app. simpl.
  replace (pred (length p + 1)) with (length p + 0)%nat by lia.
  rewrite insert_app_r. reflexivity.
Qed.

Lemma conv_window_shift olds prev (xBC : vec) :
  length olds = length xBC -> length prev = length xBC ->
  zip_with set_last (map roll_left (zip_with cons olds prev)) xBC
  = zip_with (fun p v => p ++ [v]) prev xBC.
Proof.
  revert prev xBC. induction olds as [|o olds IH]; intros [|p prev] [|v xBC];
    cbn [zip_with map length]; intros; try lia; [reflexivity|].
  rewrite set_last_roll_left. f_equal. apply IH; lia.
Qed.

Lemma conv_step_output self (window : mat) (xBC0 : vec) c :
  length window = conv_dim self ->
  length (conv1d_weight self) = conv_dim self ->
  length (conv1d_bias self) = conv_dim self ->
  (c < conv_dim self)%nat ->
  nth c (map silu
           (zip_with Rplus
              (map Rsum (zip_with (zip_with Rmult) window (conv1d_weight self)))
              (conv1d_bias self))) 0
  = silu (dot (nth c window []) (nth c (conv1d_weight self) [])
          + nth c (conv1d_bias self) 0).
Proof.
  intros Hw Hk Hb Hc.
  assert (Hz : length (zip_with (zip_with Rmult) window (conv1d_weight self))
               = conv_dim self).
  { rewrite length_zip_with. lia. }
  rewrite (nth_map_lt silu _ _ 0).
  2:{ rewrite length_zip_with, length_map. lia. }
  f_equal. rewrite (nth_zip_with Rplus _ _ _ 0 0).
  2:{ rewrite length_map. lia. }
  2:{ lia. }
  f_equal. rewrite (nth_map_lt Rsum _ _ []) by lia.
  rewrite (nth_zip_with _ _ _ _ [] []) by lia. reflexivity.
Qed.

(** C7.  The cached window has d_conv slots per channel: the oldest
    entry and the previous d_conv - 1 conv inputs.  The step drops the
    oldest entry and appends the new input, so the window keeps d_conv
    entries; the output of a channel is SiLU of the weighted sum of its
    new window against its kernel, plus its bias. *)
Theorem conv_step_shifts_and_convolves self (olds : vec) (prev : mat) (xBC : vec) :
  wf self ->
  (1 <= d_conv self)%nat ->
  length olds = conv_dim self ->
  length prev = conv_dim self ->
  Forall (fun p => length p = (d_conv self - 1)%nat) prev ->
  length xBC = conv_dim self ->
  (conv_step self (zip_with cons olds prev) xBC).1
  = zip_with (fun p v => p ++ [v]) prev xBC
  /\ Forall (fun w => length w = d_conv self)
            (conv_step self (zip_with cons olds prev) xBC).1
  /\ length (conv_step self (zip_with cons olds prev) xBC).2 = conv_dim self
  /\ forall c, (c < conv_dim self)%nat ->
       nth c (conv_step self (zip_with cons olds prev) xBC).2 0
       = silu (dot (nth c prev [] ++ [nth c xBC 0]) (nth c (conv1d_weight self) [])
               + nth c (conv1d_bias self) 0)
         /\ silu (dot (nth c prev [] ++ [nth c xBC 0]) (nth c (conv1d_weight self) [])
                  + nth c (conv1d_bias self) 0)
            = (dot (nth c prev [] ++ [nth c xBC 0]) (nth c (conv1d_weight self) [])
               + nth c (conv1d_bias self) 0)
              * sigmoid (dot (nth c prev [] ++ [nth c xBC 0])
                             (nth c (conv1d_weight self) [])
                         + nth c (conv1d_bias self) 0).
Proof.
  intros Hwf HK Ho Hp Hpk Hx. unfold conv_step. simpl.
  rewrite (conv_window_shift olds prev xBC) by lia.
  split; [reflexivity|]. split; [|split].
  - clear Ho Hp Hx. revert xBC.
    induction Hpk as [|p prev Hl _ IH]; intros [|v xBC]; simpl; constructor.
    + rewrite length_app. simpl. lia.
    + apply IH.
  - rewrite length_map, length_zip_with, length_map, !length_zip_with.
    rewrite (wf_conv_w self Hwf), (wf_conv_b self Hwf). lia.
  - intros c Hc. split; [|reflexivity].
    rewrite (conv_step_output self _ xBC c);
      [| rewrite length_zip_with; lia | apply Hwf | apply Hwf | exact Hc].
    rewrite (nth_zip_with _ _ _ _ [] 0) by lia. reflexivity.
Qed.

(** ** The SSM step, entry by entry *)

Lemma length_ssm_dt dt_bias dt : length (ssm_dt dt_bias dt) = (length dt `min` length dt_bias)%nat.
Proof. unfold ssm_dt. rewrite length_map, length_zip_with. reflexivity. Qed.

Lemma nth_ssm_dt dt_bias dt h :
  (h < length dt)%nat -> (h < length dt_bias)%nat ->
  nth h (ssm_dt dt_bias dt) 0 = softplus (nth h dt 0 + nth h dt_bias 0).
Proof.
  intros. unfold ssm_dt. rewrite (nth_map_lt softplus _ _ 0).
  - rewrite (nth_zip_with Rplus _ _ _ 0 0) by lia. reflexivity.
  - rewrite length_zip_with. lia.
Qed.

Lemma length_ssm_dA A dt : length (ssm_dA A dt) = (length dt `min` length A)%nat.
Proof. unfold ssm_dA. rewrite length_map, length_zip_with. reflexivity. Qed.

Lemma nth_ssm_dA A dt h :
  (h < length dt)%nat -> (h < length A)%nat ->
  nth h (ssm_dA A dt) 0 = exp (nth h dt 0 * nth h A 0).
Proof.
  intros. unfold ssm_dA. rewrite (nth_map_lt exp _ _ 0).
  - rewrite (nth_zip_with Rmult _ _ _ 0 0) by lia. reflexivity.
  - rewrite length_zip_with. lia.
Qed.

Lemma nth_A_of self h :
  (h < length (A_log self))%nat ->
  nth h (A_of self) 0 = - exp (nth h (A_log self) 0).
Proof. intros. unfold A_of. apply (nth_map_lt (fun a => - exp a)). lia. Qed.

Lemma length_A_of self : length (A_of self) = length (A_log self).
Proof. unfold A_of. apply length_map. Qed.

Lemma shaped2_nth h p x i :
  shaped2 h p x -> (i < h)%nat -> length (nth i x []) = p.
Proof.
  intros [HL HF] Hi. rewrite Forall_forall in HF.
  apply HF, list_elem_of_In, nth_In. lia.
Qed.

Lemma get3_dBx dt B x H P h p n :
  length dt = H -> shaped2 H P x ->
  (h < H)%nat -> (p < P)%nat -> (n < length B)%nat ->
  get3 (ssm_dBx dt B x) h p n = nth h dt 0 * nth n B 0 * get2 x h p.
Proof.
  intros Hdt Hx Hh Hp Hn. unfold get3, get2, ssm_dBx.
  pose proof (shaped2_nth _ _ _ _ Hx Hh) as Hr. destruct Hx as [Hx _].
  rewrite (nth_zip_with _ _ _ _ 0 []) by lia.
  rewrite (nth_map_lt _ _ _ 0) by lia.
  rewrite (nth_map_lt _ _ _ 0) by lia.
  reflexivity.
Qed.

Lemma shaped_dBx dt B x H P :
  length dt = H -> shaped2 H P x -> shaped H P (length B) (ssm_dBx dt B x).
Proof.
  intros Hdt [Hx HF]. unfold ssm_dBx. split.
  - rewrite length_zip_with. lia.
  - clear Hx Hdt. revert dt. induction HF as [|r x Hr _ IH]; intros [|d dt];
      simpl; constructor.
    + split; [rewrite length_map; exact Hr|].
      apply Forall_forall. intros row Hin.
      apply list_elem_of_In, in_map_iff in Hin. destruct Hin as (xp & <- & _).
      apply length_map.
    + apply IH.
Qed.

Lemma get3_st_scale dA S H P N h p n :
  length dA = H -> shaped H P N S ->
  (h < H)%nat -> (p < P)%nat -> (n < N)%nat ->
  get3 (st_scale dA S) h p n = get3 S h p n * nth h dA 0.
Proof.
  intros HdA HS Hh Hp Hn. unfold get3, st_scale.
  pose proof (shaped_nth _ _ _ _ _ HS Hh) as H1.
  pose proof (shaped_nth2 _ _ _ _ _ _ HS Hh Hp) as H2.
  destruct HS as [HS _].
  rewrite (nth_zip_with _ _ _ _ [] 0) by lia.
  rewrite (nth_map_lt _ _ _ []) by lia.
  rewrite (nth_map_lt _ _ _ 0) by lia.
  reflexivity.
Qed.

Lemma shaped_st_scale dA S H P N :
  length dA = H -> shaped H P N S -> shaped H P N (st_scale dA S).
Proof.
  intros HdA [HS HF]. unfold st_scale. split.
  - rewrite length_zip_with. lia.
  - clear HS HdA. revert dA. induction HF as [|Sh S [Hr Hrow] _ IH]; intros [|a dA];
      simpl; constructor.
    + split; [rewrite length_map; exact Hr|].
      apply Forall_forall. intros row Hin.
      apply list_elem_of_In, in_map_iff in Hin. destruct Hin as (r0 & <- & Hin).
      rewrite length_map. rewrite Forall_forall in Hrow.
      apply Hrow, list_elem_of_In, Hin.
    + apply IH.
Qed.

Lemma get3_st_add S T H P N h p n :
  shaped H P N S -> shaped H P N T ->
  (h < H)%nat -> (p < P)%nat -> (n < N)%nat ->
  get3 (st_add S T) h p n = get3 S h p n + get3 T h p n.
Proof.
  intros HS HT Hh Hp Hn. unfold get3, st_add.
  pose proof (shaped_nth _ _ _ _ _ HS Hh).
  pose proof (shaped_nth2 _ _ _ _ _ _ HS Hh Hp).
  pose proof (shaped_nth _ _ _ _ _ HT Hh).
  pose proof (shaped_nth2 _ _ _ _ _ _ HT Hh Hp).
  destruct HS as [HS _], HT as [HT _].
  rewrite (nth_zip_with _ _ _ _ [] []) by lia.
  rewrite (nth_zip_with _ _ _ _ [] []) by lia.
  rewrite (nth_zip_with _ _ _ _ 0 0) by lia.
  reflexivity.
Qed.

Lemma shaped_st_add S T H P N :
  shaped H P N S -> shaped H P N T -> shaped H P N (st_add S T).
Proof.
  intros [HS HF] [HT HG]. unfold st_add. split.
  - rewrite length_zip_with. lia.
  - clear HS HT. revert T HG. induction HF as [|Sh S [Hr Hrow] _ IH];
      intros T HG; destruct HG as [|Th T [Hr' Hrow'] HG]; simpl; constructor.
    + split; [rewrite length_zip_with; lia|].
      clear Hr Hr'. revert Th Hrow'. induction Hrow as [|r Sh Hl _ IH2];
        intros Th Hrow'; destruct Hrow' as [|r' Th Hl' Hrow']; simpl; constructor.
      * rewrite length_zip_with. lia.
      * apply IH2, Hrow'.
    + apply IH, HG.
Qed.

Lemma shaped_zeros3 H P N : shaped H P N (zeros3 H P N).
Proof.
  unfold zeros3, zeros2, zeros. split; [apply length_replicate|].
  apply Forall_replicate. split; [apply length_replicate|].
  apply Forall_replicate, length_replicate.
Qed.

Lemma get2_contract S C H P N h p :
  shaped H P N S -> (h < H)%nat -> (p < P)%nat ->
  get2 (contract S C) h p = dot (nth p (nth h S []) []) C.
Proof.
  intros HS Hh Hp. unfold get2, contract.
  pose proof (shaped_nth _ _ _ _ _ HS Hh). destruct HS as [HS _].
  rewrite (nth_map_lt _ _ _ []) by lia.
  rewrite (nth_map_lt _ _ _ []) by lia.
  reflexivity.
Qed.

Lemma shaped2_contract S C H P N :
  shaped H P N S -> shaped2 H P (contract S C).
Proof.
  intros [HS HF]. unfold contract. split; [rewrite length_map; exact HS|].
  apply Forall_forall. intros r Hin.
  apply list_elem_of_In, in_map_iff in Hin. destruct Hin as (Sh & <- & Hin).
  rewrite length_map. rewrite Forall_forall in HF.
  apply HF, list_elem_of_In, Hin.
Qed.

Lemma get2_skip D x H P h p :
  length D = H -> shaped2 H P x -> (h < H)%nat -> (p < P)%nat ->
  get2 (skip D x) h p = nth h D 0 * get2 x h p.
Proof.
  intros HD Hx Hh Hp. unfold get2, skip.
  pose proof (shaped2_nth _ _ _ _ Hx Hh). destruct Hx as [Hx _].
  rewrite (nth_zip_with _ _ _ _ 0 []) by lia.
  rewrite (nth_map_lt _ _ _ 0) by lia.
  reflexivity.
Qed.

Lemma shaped2_skip D x H P :
  length D = H -> shaped2 H P x -> shaped2 H P (skip D x).
Proof.
  intros HD [Hx HF]. unfold skip. split; [rewrite length_zip_with; lia|].
  clear HD Hx. revert D. induction HF as [|r x Hr _ IH]; intros [|d D];
    simpl; constructor.
  - rewrite length_map. exact Hr.
  - apply IH.
Qed.

Lemma get2_hp_add y y' H P h p :
  shaped2 H P y -> shaped2 H P y' -> (h < H)%nat -> (p < P)%nat ->
  get2 (hp_add y y') h p = get2 y h p + get2 y' h p.
Proof.
  intros Hy Hy' Hh Hp. unfold get2, hp_add.
  pose proof (shaped2_nth _ _ _ _ Hy Hh). pose proof (shaped2_nth _ _ _ _ Hy' Hh).
  destruct Hy as [Hy _], Hy' as [Hy' _].
  rewrite (nth_zip_with _ _ _ _ [] []) by lia.
  rewrite (nth_zip_with _ _ _ _ 0 0) by lia.
  reflexivity.
Qed.

Lemma dot_as_sum (r C : vec) N :
  length r = N -> length C = N ->
  dot r C = Rsum (map (fun n => nth n r 0 * nth n C 0) (seq 0 N)).
Proof.
  intros Hr HC. unfold dot. rewrite (zip_with_seq Rmult r C 0 0 N Hr HC).
  reflexivity.
Qed.

Lemma length_rearrange_hp p x : length (rearrange_hp p x) = (length x / p)%nat.
Proof. unfold rearrange_hp. rewrite length_map, length_seq. reflexivity. Qed.

Lemma shaped2_rearrange_hp self (x : vec) :
  wf self -> length x = d_inner self ->
  shaped2 (nheads self) (headdim self) (rearrange_hp (headdim self) x).
Proof.
  intros Hwf Hx. split.
  - rewrite length_rearrange_hp, Hx. reflexivity.
  - unfold rearrange_hp. apply Forall_forall. intros r Hin.
    apply list_elem_of_In, in_map_iff in Hin. destruct Hin as (h & <- & Hin).
    apply in_seq in Hin. rewrite Hx in Hin. fold (nheads self) in Hin.
    rewrite length_take, length_drop, Hx, (wf_heads self Hwf). nia.
Qed.

Lemma get2_rearrange_hp self (x : vec) h p :
  length x = d_inner self -> (h < nheads self)%nat -> (p < headdim self)%nat ->
  get2 (rearrange_hp (headdim self) x) h p = nth (h * headdim self + p) x 0.
Proof.
  intros Hx Hh Hp. unfold get2, rearrange_hp.
  rewrite (nth_map_lt _ _ _ 0%nat).
  2:{ rewrite length_seq, Hx. exact Hh. }
  rewrite seq_nth by (rewrite Hx; exact Hh). simpl.
  rewrite !nth_lookup, lookup_take_lt by exact Hp.
  rewrite lookup_drop. reflexivity.
Qed.

Lemma ssm_update_shaped A dt_bias D S dt x B C H P N :
  length A = H -> length dt_bias = H -> shaped H P N S ->
  length dt = H -> shaped2 H P x -> length B = N ->
  shaped H P N (ssm_update A dt_bias D S dt x B C).1.
Proof.
  intros HA Hb HS Hdt Hx HB. unfold ssm_update. simpl.
  apply shaped_st_add.
  - apply shaped_st_scale; [|exact HS].
    rewrite length_ssm_dA, length_ssm_dt. lia.
  - rewrite <- HB. apply shaped_dBx; [|exact Hx].
    rewrite length_ssm_dt. lia.
Qed.

Lemma ssm_update_state_entry A dt_bias D S dt x B C H P N h p n :
  length A = H -> length dt_bias = H -> shaped H P N S ->
  length dt = H -> shaped2 H P x -> length B = N ->
  (h < H)%nat -> (p < P)%nat -> (n < N)%nat ->
  get3 (ssm_update A dt_bias D S dt x B C).1 h p n
  = get3 S h p n
    * exp (softplus (nth h dt 0 + nth h dt_bias 0) * nth h A 0)
    + softplus (nth h dt 0 + nth h dt_bias 0) * nth n B 0 * get2 x h p.
Proof.
  intros HA Hb HS Hdt Hx HB Hh Hp Hn. unfold ssm_update. simpl.
  assert (Hl : length (ssm_dt dt_bias dt) = H) by (rewrite length_ssm_dt; lia).
  rewrite (get3_st_add _ _ H P N); try assumption.
  2:{ apply shaped_st_scale; [|exact HS]. rewrite length_ssm_dA. lia. }
  2:{ rewrite <- HB. apply shaped_dBx; assumption. }
  rewrite (get3_st_scale _ _ H P N); try assumption.
  2:{ rewrite length_ssm_dA. lia. }
  rewrite (get3_dBx _ _ _ H P); try assumption; [|lia].
  rewrite nth_ssm_dA by lia. rewrite nth_ssm_dt by lia. reflexivity.
Qed.

Lemma ssm_update_output_entry A dt_bias D S dt x B C H P N h p :
  length A = H -> length dt_bias = H -> length D = H -> shaped H P N S ->
  length dt = H -> shaped2 H P x -> length B = N -> length C = N ->
  (h < H)%nat -> (p < P)%nat ->
  get2 (ssm_update A dt_bias D S dt x B C).2 h p
  = Rsum (map (fun n => get3 (ssm_update A dt_bias D S dt x B C).1 h p n * nth n C 0)
              (seq 0 N))
    + nth h D 0 * get2 x h p.
Proof.
  intros HA Hb HD HS Hdt Hx HB HC Hh Hp.
  pose proof (ssm_update_shaped A dt_bias D S dt x B C H P N HA Hb HS Hdt Hx HB) as Hs'.
  unfold ssm_update in *. simpl in *.
  rewrite (get2_hp_add _ _ H P); try assumption.
  2:{ eapply shaped2_contract, Hs'. }
  2:{ apply shaped2_skip; assumption. }
  rewrite (get2_contract _ _ H P N) by assumption.
  rewrite (get2_skip _ _ H P) by assumption.
  f_equal. apply dot_as_sum; [|exact HC].
  apply (shaped_nth2 _ _ _ _ _ _ Hs' Hh Hp).
Qed.

(** C5.  One SSM step of [forward_stage], for head [h], row [p] and
    state column [n]: with dt_eff = softplus(dt_raw + dt_bias_h), A_h =
    -exp(A_log_h) and decay = exp(dt_eff * A_h), the new state entry is
    the old one times decay plus dt_eff * x_{h,p} * B_n, the output is
    the new state row contracted with C over the state dimension plus
    D_h * x_{h,p}, and the state keeps its shape. *)
Theorem ssm_step_recurrence self (S : tensor3) (dt x B C : vec) h p n :
  wf self ->
  shaped (nheads self) (headdim self) (d_state self) S ->
  length dt = nheads self -> length x = d_inner self ->
  length B = d_state self -> length C = d_state self ->
  (h < nheads self)%nat -> (p < headdim self)%nat -> (n < d_state self)%nat ->
  get3 (ssm_step self S dt x B C).1 h p n
  = get3 S h p n
    * exp (softplus (nth h dt 0 + nth h (dt_bias self) 0)
           * - exp (nth h (A_log self) 0))
    + softplus (nth h dt 0 + nth h (dt_bias self) 0)
      * (nth (h * headdim self + p) x 0 * nth n B 0)
  /\ get2 (ssm_step self S dt x B C).2 h p
     = Rsum (map (fun k => get3 (ssm_step self S dt x B C).1 h p k * nth k C 0)
                 (seq 0 (d_state self)))
       + nth h (D self) 0 * nth (h * headdim self + p) x 0
  /\ shaped (nheads self) (headdim self) (d_state self) (ssm_step self S dt x B C).1.
Proof.
  intros Hwf HS Hdt Hx HB HC Hh Hp Hn. unfold ssm_step.
  pose proof (shaped2_rearrange_hp self x Hwf Hx) as Hxs.
  assert (HA : length (A_of self) = nheads self).
  { rewrite length_A_of. apply Hwf. }
  split; [|split].
  - rewrite (ssm_update_state_entry _ _ _ _ _ _ _ _ (nheads self) (headdim self)
               (d_state self)); try assumption; try apply Hwf.
    rewrite nth_A_of by (rewrite (wf_A_log self Hwf); exact Hh).
    rewrite (get2_rearrange_hp self x h p Hx Hh Hp). ring.
  - rewrite (ssm_update_output_entry _ _ _ _ _ _ _ _ (nheads self) (headdim self)
               (d_state self)); try assumption; try apply Hwf.
    rewrite (get2_rearrange_hp self x h p Hx Hh Hp). reflexivity.
  - apply ssm_update_shaped; try assumption; apply Hwf.
Qed.

Lemma Forall_nth_lt {A} (Q : A -> Prop) l i d :
  Forall Q l -> (i < length l)%nat -> Q (nth i l d).
Proof.
  intros HF Hi. rewrite Forall_forall in HF.
  apply HF, list_elem_of_In, nth_In, Hi.
Qed.


(** ** Algebra of elementwise operations *)

Section ZipAlgebra.
Context {A : Type} (f : A -> A -> A).

Lemma zw_comm :
  (forall x y, f x y = f y x) ->
  forall l k, zip_with f l k = zip_with f k l.
Proof.
  intros Hf l. induction l as [|x l IH]; intros [|y k]; simpl; try reflexivity.
  rewrite Hf, IH. reflexivity.
Qed.

Lemma zw_assoc :
  (forall x y z, f (f x y) z = f x (f y z)) ->
  forall l k m, zip_with f (zip_with f l k) m = zip_with f l (zip_with f k m).
Proof.
  intros Hf l. induction l as [|x l IH]; intros [|y k] [|z m]; simpl;
    try reflexivity.
  rewrite Hf, IH. reflexivity.
Qed.
End ZipAlgebra.

Lemma zw_distr {A B} (f : A -> B -> A) (g : A -> A -> A) :
  (forall s t x, f (g s t) x = g (f s x) (f t x)) ->
  forall l k a,
    zip_with f (zip_with g l k) a = zip_with g (zip_with f l a) (zip_with f k a).
Proof.
  intros Hf l. induction l as [|s l IH]; intros [|t k] [|x a]; simpl;
    try reflexivity.
  rewrite Hf, IH. reflexivity.
Qed.

Lemma map_zw_all {A B} (h : A -> B) (g : A -> A -> A) (g' : B -> B -> B) :
  (forall x y, h (g x y) = g' (h x) (h y)) ->
  forall l k, map h (zip_with g l k) = zip_with g' (map h l) (map h k).
Proof.
  intros Hh l. induction l as [|x l IH]; intros [|y k]; simpl; try reflexivity.
  rewrite Hh, IH. reflexivity.
Qed.

Lemma zw_twice {A B} (f : A -> B -> A) (m : B -> B -> B) :
  (forall s x y, f (f s x) y = f s (m x y)) ->
  forall l d a, zip_with f (zip_with f l d) a = zip_with f l (zip_with m d a).
Proof.
  intros Hf l. induction l as [|s l IH]; intros [|x d] [|y a]; simpl;
    try reflexivity.
  rewrite Hf, IH. reflexivity.
Qed.

Lemma map_zw {A B} (h : A -> B) (g : A -> A -> A) (g' : B -> B -> B)
    (Rel : A -> A -> Prop) :
  (forall x y, Rel x y -> h (g x y) = g' (h x) (h y)) ->
  forall l k, Forall2 Rel l k ->
    map h (zip_with g l k) = zip_with g' (map h l) (map h k).
Proof.
  intros Hh l k HF. induction HF as [|x y l k Hxy _ IH]; simpl; [reflexivity|].
  rewrite Hh, IH by exact Hxy. reflexivity.
Qed.

Lemma zw_id_l {A B} (f : A -> B -> B) (e : A) n :
  (forall y, f e y = y) ->
  forall k, (length k <= n)%nat -> zip_with f (replicate n e) k = k.
Proof.
  intros Hf. induction n as [|n IH]; intros [|y k] Hk; simpl in *; try reflexivity;
    try lia.
  rewrite Hf, IH by lia. reflexivity.
Qed.

Lemma zw_id_r {A B} (f : A -> B -> A) (e : B) n :
  (forall x, f x e = x) ->
  forall l, (length l <= n)%nat -> zip_with f l (replicate n e) = l.
Proof.
  intros Hf. induction n as [|n IH]; intros [|x l] Hl; simpl in *; try reflexivity;
    try lia.
  rewrite Hf, IH by lia. reflexivity.
Qed.

Lemma vmul_comm a b : vmul a b = vmul b a.
Proof. apply zw_comm. intros; ring. Qed.

Lemma vmul_assoc a b c : vmul (vmul a b) c = vmul a (vmul b c).
Proof. apply zw_assoc. intros; ring. Qed.

Lemma st_add_comm S T : st_add S T = st_add T S.
Proof. apply zw_comm. apply zw_comm. apply zw_comm. intros; ring. Qed.

Lemma st_add_assoc S T U : st_add (st_add S T) U = st_add S (st_add T U).
Proof. apply zw_assoc. apply zw_assoc. apply zw_assoc. intros; ring. Qed.

Lemma hp_add_comm y y' : hp_add y y' = hp_add y' y.
Proof. apply zw_comm. apply zw_comm. intros; ring. Qed.

Lemma hp_add_assoc y y' y'' : hp_add (hp_add y y') y'' = hp_add y (hp_add y' y'').
Proof. apply zw_assoc. apply zw_assoc. intros; ring. Qed.

Lemma st_scale_add a S T :
  st_scale a (st_add S T) = st_add (st_scale a S) (st_scale a T).
Proof.
  unfold st_scale, st_add. apply zw_distr. intros Sh Th x.
  apply map_zw_all. intros r r'. apply map_zw_all. intros; ring.
Qed.

Lemma st_scale_twice d a S : st_scale a (st_scale d S) = st_scale (vmul d a) S.
Proof.
  unfold st_scale, vmul. apply zw_twice. intros Sh x y.
  rewrite map_map. apply map_ext. intros r.
  rewrite map_map. apply map_ext. intros s. ring.
Qed.

Lemma st_scale_ones H S :
  (length S <= H)%nat -> st_scale (replicate H 1) S = S.
Proof.
  intros HS. unfold st_scale. apply zw_id_r; [|exact HS].
  intros Sh. rewrite <- (map_id Sh) at 2. apply map_ext. intros r.
  rewrite <- (map_id r) at 2. apply map_ext. intros s. ring.
Qed.

Lemma st_add_zeros_l H P N S :
  shaped H P N S -> st_add (zeros3 H P N) S = S.
Proof.
  intros [HS HF]. unfold st_add, zeros3, zeros2, zeros. subst H.
  induction HF as [|Sh S [Hp Hrows] _ IH]; simpl; [reflexivity|].
  rewrite IH. f_equal. subst P.
  clear IH. induction Hrows as [|r Sh Hr _ IH]; simpl; [reflexivity|].
  rewrite IH. f_equal. apply zw_id_l; [|lia]. intros; ring.
Qed.

Lemma st_add_zeros_r H P N S :
  shaped H P N S -> st_add S (zeros3 H P N) = S.
Proof. intros HS. rewrite st_add_comm. apply st_add_zeros_l, HS. Qed.

Lemma map_replicate {A B} (f : A -> B) n x :
  map f (replicate n x) = replicate n (f x).
Proof. induction n as [|n IH]; simpl; [reflexivity|]. rewrite IH. reflexivity. Qed.

Lemma st_scale_zeros a H P N :
  length a = H -> st_scale a (zeros3 H P N) = zeros3 H P N.
Proof.
  intros Ha. unfold st_scale, zeros3. subst H.
  induction a as [|x a IH]; simpl; [reflexivity|].
  rewrite IH. f_equal. unfold zeros2, zeros.
  rewrite !map_replicate. do 2 f_equal. ring.
Qed.

Lemma dot_add (r r' C : vec) :
  length r = length r' ->
  dot (zip_with Rplus r r') C = dot r C + dot r' C.
Proof.
  unfold dot, Rsum. revert r' C.
  induction r as [|x r IH]; intros [|x' r'] [|c C] Hl; simpl in *;
    try lia; try lra.
  rewrite IH by lia. ring.
Qed.

Lemma dot_scale (r C : vec) a :
  dot (map (fun s => s * a) r) C = dot r C * a.
Proof.
  unfold dot, Rsum. revert C.
  induction r as [|x r IH]; intros [|c C]; simpl; try lra.
  rewrite IH. ring.
Qed.

Lemma shaped_same_rows H P N S T :
  shaped H P N S -> shaped H P N T ->
  Forall2 (Forall2 (fun r r' : vec => length r = length r')) S T.
Proof.
  intros [HS HF] [HT HG]. subst H. revert T HT HG.
  induction HF as [|Sh S [Hp Hrows] _ IH]; intros [|Th T] HT HG; simpl in *;
    try lia; constructor.
  - apply Forall_cons in HG. destruct HG as [[Hp' Hrows'] _]. subst P.
    clear IH. revert Th Hp' Hrows'.
    induction Hrows as [|r Sh Hr _ IH]; intros [|r' Th] Hp' Hrows'; simpl in *;
      try lia; constructor.
    + apply Forall_cons in Hrows'. lia.
    + apply IH; [lia|]. apply Forall_cons in Hrows'. tauto.
  - apply IH; [lia|]. apply Forall_cons in HG. tauto.
Qed.

Lemma contract_add H P N S T C :
  shaped H P N S -> shaped H P N T ->
  contract (st_add S T) C = hp_add (contract S C) (contract T C).
Proof.
  intros HS HT. unfold contract, st_add, hp_add.
  apply (map_zw _ _ _ (Forall2 (fun r r' : vec => length r = length r'))).
  - intros Sh Th Hrows.
    apply (map_zw _ _ _ (fun r r' : vec => length r = length r')); [|exact Hrows].
    intros r r' Hl. apply dot_add, Hl.
  - apply (shaped_same_rows H P N); assumption.
Qed.

Lemma contract_scale a S C :
  contract (st_scale a S) C = hp_scale a (contract S C).
Proof.
  unfold contract, st_scale, hp_scale. revert a.
  induction S as [|Sh S IH]; intros [|x a]; simpl; try reflexivity.
  rewrite IH. f_equal. rewrite !map_map. apply map_ext. intros r.
  apply dot_scale.
Qed.

(** ** One chunk in closed form is the recurrence *)

Lemma run_steps_app S c1 c2 :
  run_steps S (c1 ++ c2)
  = ((run_steps S c1).1 ++ (run_steps (run_steps S c1).2 c2).1,
     (run_steps (run_steps S c1).2 c2).2).
Proof.
  revert S. induction c1 as [|s c1 IH]; intros S; simpl.
  - destruct (run_steps S c2); reflexivity.
  - rewrite IH.
    destruct (run_steps (st_add (st_scale (s_dA s) S) (s_dBx s)) c1) as [ys Sf].
    reflexivity.
Qed.

Lemma run_steps_shaped H P N S c :
  shaped H P N S -> Forall (step_shaped H P N) c ->
  shaped H P N (run_steps S c).2.
Proof.
  intros HS Hc. revert S HS.
  induction Hc as [|s c [Ha Hb] _ IH]; intros S HS; simpl; [exact HS|].
  specialize (IH (st_add (st_scale (s_dA s) S) (s_dBx s))).
  destruct (run_steps (st_add (st_scale (s_dA s) S) (s_dBx s)) c) as [ys Sf].
  apply IH. apply shaped_st_add; [|exact Hb].
  apply shaped_st_scale; assumption.
Qed.

Lemma length_vmul a b : length (vmul a b) = (length a `min` length b)%nat.
Proof. apply length_zip_with. Qed.

Lemma length_chunk_decay H P N c :
  Forall (step_shaped H P N) c -> length (chunk_decay H c) = H.
Proof.
  unfold chunk_decay. induction 1 as [|s c [Ha _] _ IH]; simpl.
  - apply length_replicate.
  - rewrite length_vmul, IH, Ha. lia.
Qed.

Lemma chunk_decay_snoc H c s :
  length (s_dA s) = H ->
  chunk_decay H (c ++ [s]) = vmul (chunk_decay H c) (s_dA s).
Proof.
  intros Ha. unfold chunk_decay. rewrite map_app, fold_right_app. simpl.
  assert (E : vmul (s_dA s) (replicate H 1) = s_dA s).
  { apply zw_id_r; [intros; ring|lia]. }
  rewrite E. induction (map s_dA c) as [|d l IH]; simpl.
  - symmetry. apply zw_id_l; [intros; ring|lia].
  - rewrite IH, vmul_assoc. reflexivity.
Qed.

Lemma imap_map {A B C} (h : B -> C) (g : nat -> A -> B) l :
  imap (fun i x => h (g i x)) l = map h (imap g l).
Proof.
  revert g. induction l as [|x l IH]; intros g; simpl; [reflexivity|].
  f_equal. apply (IH (g ∘ S)).
Qed.

Lemma st_sum_snoc H P N a l b :
  length a = H -> shaped H P N b ->
  fold_right st_add (zeros3 H P N) (map (st_scale a) l ++ [b])
  = st_add (st_scale a (fold_right st_add (zeros3 H P N) l)) b.
Proof.
  intros Ha Hb. rewrite fold_right_app. simpl.
  rewrite (st_add_zeros_r H P N b Hb).
  induction l as [|x l IH]; simpl.
  - rewrite (st_scale_zeros a H P N Ha), (st_add_zeros_l H P N b Hb). reflexivity.
  - rewrite IH, st_scale_add, st_add_assoc. reflexivity.
Qed.

Lemma chunk_state_snoc H P N c s :
  step_shaped H P N s ->
  chunk_state H P N (c ++ [s])
  = st_add (st_scale (s_dA s) (chunk_state H P N c)) (s_dBx s).
Proof.
  intros [Ha Hb]. unfold chunk_state. rewrite imap_app. simpl.
  rewrite Nat.add_0_r, drop_ge by (rewrite length_app; simpl; lia).
  replace (chunk_decay H []) with (replicate H 1) by reflexivity.
  rewrite st_scale_ones by (destruct Hb; lia).
  rewrite (imap_ext _
             (fun j sj => st_scale (s_dA s)
                            (st_scale (chunk_decay H (drop (S j) c)) (s_dBx sj)))).
  2:{ intros j sj Hj. apply lookup_lt_Some in Hj.
      rewrite drop_app_le by lia.
      rewrite (chunk_decay_snoc H _ s Ha), st_scale_twice. reflexivity. }
  rewrite (imap_map (st_scale (s_dA s))).
  apply st_sum_snoc; assumption.
Qed.

Lemma chunk_state_shaped H P N c :
  Forall (step_shaped H P N) c -> shaped H P N (chunk_state H P N c).
Proof.
  induction c as [|s c IH] using rev_ind; intros Hc.
  - apply shaped_zeros3.
  - apply Forall_app in Hc. destruct Hc as [Hc Hs].
    apply Forall_cons in Hs. destruct Hs as [Hs _].
    rewrite (chunk_state_snoc H P N c s Hs). destruct Hs as [Ha Hb].
    apply shaped_st_add; [|exact Hb].
    apply shaped_st_scale; [exact Ha|]. apply IH, Hc.
Qed.

(** The state at the end of a chunk. *)
Lemma chunk_final_state H P N S c :
  shaped H P N S -> Forall (step_shaped H P N) c ->
  st_add (st_scale (chunk_decay H c) S) (chunk_state H P N c) = (run_steps S c).2.
Proof.
  intros HS. induction c as [|s c IH] using rev_ind; intros Hc.
  - simpl. change (chunk_decay H []) with (replicate H 1).
    rewrite st_scale_ones by (destruct HS; lia).
    apply (st_add_zeros_r H P N S HS).
  - apply Forall_app in Hc. destruct Hc as [Hc Hs].
    apply Forall_cons in Hs. destruct Hs as [Hs _].
    rewrite run_steps_app. simpl.
    destruct (run_steps S c) as [ys Sc] eqn:E. simpl in *.
    rewrite <- (IH Hc).
    rewrite (chunk_state_snoc H P N c s Hs).
    rewrite (chunk_decay_snoc H c s (proj1 Hs)).
    rewrite <- st_scale_twice, st_scale_add, st_add_assoc. reflexivity.
Qed.

(** The output of a chunk at its last position. *)
Lemma chunk_output_last H P N S c s :
  shaped H P N S -> Forall (step_shaped H P N) (c ++ [s]) ->
  hp_add (hp_add (contract (chunk_state H P N (c ++ [s])) (s_C s)) (s_Dx s))
         (hp_scale (chunk_decay H (c ++ [s])) (contract S (s_C s)))
  = hp_add (contract (run_steps S (c ++ [s])).2 (s_C s)) (s_Dx s).
Proof.
  intros HS Hc.
  rewrite <- (chunk_final_state H P N S (c ++ [s]) HS Hc).
  rewrite (contract_add H P N).
  - rewrite contract_scale.
    rewrite (hp_add_comm (hp_scale _ _)), !hp_add_assoc. f_equal.
    apply hp_add_comm.
  - apply shaped_st_scale; [|exact HS].
    apply (length_chunk_decay H P N), Hc.
  - apply chunk_state_shaped, Hc.
Qed.

Lemma run_steps_snoc S c s :
  run_steps S (c ++ [s])
  = ((run_steps S c).1
       ++ [hp_add (contract (run_steps S (c ++ [s])).2 (s_C s)) (s_Dx s)],
     (run_steps S (c ++ [s])).2).
Proof.
  rewrite !run_steps_app. simpl. reflexivity.
Qed.

Lemma chunk_scan_is_run_steps H P N S c :
  shaped H P N S -> Forall (step_shaped H P N) c ->
  chunk_scan H P N S c = run_steps S c.
Proof.
  intros HS. induction c as [|s c IH] using rev_ind; intros Hc.
  - unfold chunk_scan. simpl. f_equal.
    apply (chunk_final_state H P N S [] HS Hc).
  - pose proof Hc as Hc'. apply Forall_app in Hc'. destruct Hc' as [Hc0 _].
    specialize (IH Hc0). unfold chunk_scan in *.
    rewrite run_steps_snoc. f_equal.
    + rewrite imap_app. simpl. rewrite Nat.add_0_r. f_equal.
      * apply (f_equal fst) in IH. simpl in IH. rewrite <- IH.
        apply imap_ext. intros i si Hi. apply lookup_lt_Some in Hi.
        unfold chunk_intra, chunk_boundary.
        rewrite take_app_le by lia. reflexivity.
      * f_equal. unfold chunk_intra, chunk_boundary.
        rewrite firstn_all2 by (rewrite length_app; simpl; lia).
        apply (chunk_output_last H P N S c s HS Hc).
    + apply (chunk_final_state H P N S _ HS Hc).
Qed.

(** ** Chunks *)

Lemma concat_chunks_fuel {A} n fuel (l : list A) :
  (1 <= n)%nat -> (length l <= fuel)%nat ->
  concat (chunks_fuel fuel n l) = l.
Proof.
  intros Hn. revert l. induction fuel as [|fuel IH]; intros l Hl.
  - destruct l; [reflexivity|simpl in Hl; lia].
  - destruct l as [|x l]; [reflexivity|].
    cbn [chunks_fuel concat]. rewrite IH.
    + apply take_drop.
    + rewrite length_drop. simpl in *. lia.
Qed.

Lemma concat_chunks {A} n (l : list A) :
  (1 <= n)%nat -> concat (chunks n l) = l.
Proof. intros Hn. apply concat_chunks_fuel; [exact Hn|lia]. Qed.

Lemma Forall_chunks {A} (Q : A -> Prop) n (l : list A) :
  Forall Q l -> Forall (Forall Q) (chunks n l).
Proof.
  unfold chunks. generalize (length l) as fuel. intros fuel. revert l.
  induction fuel as [|fuel IH]; intros l Hl; simpl; [constructor|].
  destruct l as [|x l]; constructor.
  - apply Forall_take, Hl.
  - apply IH, Forall_drop, Hl.
Qed.

(** Chunk after chunk is the recurrence over the whole sequence. *)
Lemma fold_chunks_is_run_steps H P N cl ys S :
  shaped H P N S -> Forall (Forall (step_shaped H P N)) cl ->
  fold_left
    (fun acc c => let '(y, S') := chunk_scan H P N acc.2 c in (acc.1 ++ y, S'))
    cl (ys, S)
  = (ys ++ (run_steps S (concat cl)).1, (run_steps S (concat cl)).2).
Proof.
  intros HS Hcl. revert ys S HS.
  induction Hcl as [|c cl Hc _ IH]; intros ys S HS; cbn [fold_left fst snd concat].
  - simpl. rewrite app_nil_r. reflexivity.
  - rewrite (chunk_scan_is_run_steps H P N S c HS Hc).
    destruct (run_steps S c) as [y S'] eqn:E.
    rewrite IH.
    2:{ replace S' with (run_steps S c).2 by (rewrite E; reflexivity).
        apply run_steps_shaped; assumption. }
    rewrite run_steps_app, E. simpl. rewrite app_assoc. reflexivity.
Qed.

Lemma chunked_scan_is_run_steps H P N n steps :
  (1 <= n)%nat -> Forall (step_shaped H P N) steps ->
  chunked_scan H P N n steps = run_steps (zeros3 H P N) steps.
Proof.
  intros Hn Hs. unfold chunked_scan.
  rewrite (fold_chunks_is_run_steps H P N).
  - rewrite (concat_chunks n steps Hn). simpl.
    destruct (run_steps (zeros3 H P N) steps); reflexivity.
  - apply shaped_zeros3.
  - apply Forall_chunks, Hs.
Qed.

(** The sequential scan, on discretised steps. *)
Lemma sequential_scan_is_run_steps A dt_bias D S steps :
  sequential_scan A dt_bias D S steps
  = run_steps S (map (discretize A dt_bias D) steps).
Proof.
  revert S. induction steps as [|[[[x dt] B] C] steps IH]; intros S;
    [reflexivity|].
  cbn [sequential_scan map run_steps discretize s_dA s_dBx s_C s_Dx].
  unfold ssm_update. cbv zeta. rewrite IH. reflexivity.
Qed.

Lemma discretize_shaped A dt_bias D H P N i :
  length A = H -> length dt_bias = H ->
  input_shaped H P N i -> step_shaped H P N (discretize A dt_bias D i).
Proof.
  intros HA Hb. destruct i as [[[x dt] B] C]. intros (Hx & Hdt & HB).
  split; simpl.
  - rewrite length_ssm_dA, length_ssm_dt. lia.
  - rewrite <- HB. apply shaped_dBx; [|exact Hx].
    rewrite length_ssm_dt. lia.
Qed.

Lemma scan_model_is_sequential headdim d_state x dt A B C n D dt_bias :
  (1 <= n)%nat ->
  length dt_bias = length A ->
  Forall (input_shaped (length A) headdim d_state) (zip (zip (zip x dt) B) C) ->
  mamba_chunk_scan_combined headdim d_state x dt A B C n D dt_bias
  = sequential_scan A dt_bias D (zeros3 (length A) headdim d_state)
      (zip (zip (zip x dt) B) C).
Proof.
  intros Hn Hb Hs. unfold mamba_chunk_scan_combined.
  rewrite sequential_scan_is_run_steps.
  apply chunked_scan_is_run_steps; [exact Hn|].
  apply Forall_forall. intros s Hin.
  apply list_elem_of_In, in_map_iff in Hin. destruct Hin as (i & <- & Hin).
  apply discretize_shaped; [reflexivity|exact Hb|].
  rewrite Forall_forall in Hs. apply Hs, list_elem_of_In, Hin.
Qed.

(** ** The convolution, channel by channel *)

Lemma dot_app_l (l r w : vec) :
  length l = length w -> dot (l ++ r) w = dot l w.
Proof.
  unfold dot. revert w. induction l as [|x l IH]; intros [|y w] Hl; simpl in *;
    try lia.
  - destruct r; reflexivity.
  - rewrite IH by lia. reflexivity.
Qed.

Lemma dot_take (l w : vec) :
  dot l w = dot (take (length w) l) w.
Proof.
  unfold dot. revert w. induction l as [|x l IH]; intros [|y w]; simpl;
    try reflexivity.
  rewrite IH. reflexivity.
Qed.

Lemma zeros_S n : zeros (S n) = 0 :: zeros n.
Proof. reflexivity. Qed.

Lemma length_zeros n : length (zeros n) = n.
Proof. apply length_replicate. Qed.

(** The window of a channel after one more input. *)
Lemma window_row_step K (col : vec) v :
  (1 <= K)%nat ->
  set_last (roll_left (drop (length col) (zeros K ++ col))) v
  = drop (S (length col)) (zeros K ++ (col ++ [v])).
Proof.
  intros HK.
  destruct (drop (length col) (zeros K ++ col)) as [|o p] eqn:E.
  - apply (f_equal length) in E. rewrite length_drop, length_app, length_zeros in E.
    simpl in E. lia.
  - rewrite set_last_roll_left.
    rewrite app_assoc, drop_app_le by (rewrite length_app, length_zeros; lia).
    replace (S (length col)) with (length col + 1)%nat by lia.
    rewrite <- drop_drop, E. reflexivity.
Qed.

(** The stored window of a channel is the streaming window. *)
Lemma pad_left_window K (col : vec) :
  pad_left (Z.of_nat K - Z.of_nat (length col)) col
  = drop (length col) (zeros K ++ col).
Proof.
  unfold pad_left. destruct (Z.leb_spec 0 (Z.of_nat K - Z.of_nat (length col))).
  - rewrite drop_app_le by (rewrite length_zeros; lia).
    f_equal. unfold zeros. rewrite drop_replicate. f_equal. lia.
  - rewrite drop_app_ge by (rewrite length_zeros; lia).
    rewrite length_zeros. f_equal. lia.
Qed.

(** The bulk convolution of a channel at the last position reads the
    streaming window. *)
Lemma conv_last_position K (col w : vec) v :
  (1 <= K)%nat -> length w = K ->
  dot (drop (length col) (zeros (K - 1) ++ (col ++ [v]) ++ zeros (K - 1))) w
  = dot (drop (S (length col)) (zeros K ++ (col ++ [v]))) w.
Proof.
  intros HK Hw. destruct K as [|k]; [lia|].
  replace (S k - 1)%nat with k by lia. rewrite zeros_S.
  cbn [app drop]. rewrite app_assoc.
  rewrite drop_app_le by (rewrite !length_app, length_zeros; simpl; lia).
  apply dot_app_l.
  rewrite length_drop, !length_app, length_zeros. simpl. lia.
Qed.

(** At an earlier position it does not read the last input. *)
Lemma conv_earlier_position K (col w : vec) v t :
  (1 <= K)%nat -> length w = K -> (t < length col)%nat ->
  dot (drop t (zeros (K - 1) ++ (col ++ [v]) ++ zeros (K - 1))) w
  = dot (drop t (zeros (K - 1) ++ col ++ zeros (K - 1))) w.
Proof.
  intros HK Hw Ht.
  rewrite (dot_take (drop t (_ ++ (col ++ [v]) ++ _))).
  rewrite (dot_take (drop t (_ ++ col ++ _))).
  f_equal. rewrite Hw, <- !app_assoc, !(app_assoc (zeros (K - 1)) col).
  rewrite !take_drop_commute.
  rewrite !(take_app_le (zeros (K - 1) ++ col))
    by (rewrite length_app, length_zeros; lia).
  reflexivity.
Qed.

(** ** The convolution on all channels *)

Lemma map_nth_seq {A} (l : list A) d :
  map (fun i => nth i l d) (seq 0 (length l)) = l.
Proof.
  induction l as [|x l IH]; simpl; [reflexivity|].
  f_equal. rewrite <- seq_shift, map_map. exact IH.
Qed.

Lemma zip_with_map_seq_l {A B C} (f : A -> B -> C) (g : nat -> A) (k : list B) db n :
  length k = n ->
  zip_with f (map g (seq 0 n)) k = map (fun c => f (g c) (nth c k db)) (seq 0 n).
Proof.
  intros Hk.
  rewrite (zip_with_seq f _ k (g 0%nat) db n) by (rewrite ?length_map, ?length_seq; lia).
  apply map_ext_in. intros c Hc. apply in_seq in Hc.
  rewrite (nth_map_lt g _ _ 0%nat) by (rewrite length_seq; lia).
  rewrite seq_nth by lia. reflexivity.
Qed.

Lemma zip_with_map_seq_r {A B C} (f : A -> B -> C) (g : nat -> B) (l : list A) da n :
  length l = n ->
  zip_with f l (map g (seq 0 n)) = map (fun c => f (nth c l da) (g c)) (seq 0 n).
Proof.
  intros Hl.
  rewrite (zip_with_seq f l _ da (g 0%nat) n) by (rewrite ?length_map, ?length_seq; lia).
  apply map_ext_in. intros c Hc. apply in_seq in Hc.
  rewrite (nth_map_lt g _ _ 0%nat) by (rewrite length_seq; lia).
  rewrite seq_nth by lia. reflexivity.
Qed.

Lemma stored_window self (X : mat) :
  map (pad_left (Z.of_nat (d_conv self) - Z.of_nat (length X)))
      (transpose (conv_dim self) X)
  = window_after self X.
Proof.
  unfold transpose, window_after. rewrite map_map. apply map_ext. intros c.
  rewrite <- (length_map (fun row : vec => nth c row 0) X) at 1 2.
  apply pad_left_window.
Qed.

Lemma length_window_after self X : length (window_after self X) = conv_dim self.
Proof. unfold window_after. rewrite length_map, length_seq. reflexivity. Qed.

Lemma window_after_nil self : window_after self [] = zeros2 (conv_dim self) (d_conv self).
Proof.
  unfold window_after, zeros2. simpl.
  transitivity (replicate (length (seq 0 (conv_dim self))) (zeros (d_conv self)));
    [|by rewrite length_seq].
  induction (seq 0 (conv_dim self)) as [|c l IH]; simpl; [reflexivity|].
  f_equal; [apply app_nil_r|exact IH].
Qed.

Lemma window_after_snoc self (X : mat) (x : vec) :
  (1 <= d_conv self)%nat -> length x = conv_dim self ->
  (conv_step self (window_after self X) x).1 = window_after self (X ++ [x]).
Proof.
  intros HK Hx. unfold conv_step. cbn [fst]. unfold window_after.
  rewrite map_map, (zip_with_map_seq_l _ _ x 0 _ Hx).
  apply map_ext. intros c.
  rewrite map_app, length_app. cbn [map length].
  rewrite <- (length_map (fun row : vec => nth c row 0) X).
  rewrite window_row_step by exact HK.
  f_equal. lia.
Qed.

(** The output of the convolution step, channel by channel. *)
Lemma conv_step_rows self (window : mat) (x : vec) :
  wf self -> length window = conv_dim self -> length x = conv_dim self ->
  (conv_step self window x).2
  = map (fun c => silu (dot (nth c (conv_step self window x).1 [])
                            (nth c (conv1d_weight self) [])
                        + nth c (conv1d_bias self) 0))
        (seq 0 (conv_dim self)).
Proof.
  intros Hwf Hw Hx. unfold conv_step. cbn [fst snd].
  set (w' := zip_with set_last (map roll_left window) x).
  assert (Hw' : length w' = conv_dim self).
  { unfold w'. rewrite length_zip_with, length_map. lia. }
  set (out := map silu _).
  assert (Hout : length out = conv_dim self).
  { unfold out. rewrite length_map, length_zip_with, length_map, length_zip_with.
    rewrite Hw', (wf_conv_w self Hwf), (wf_conv_b self Hwf). lia. }
  rewrite <- (map_nth_seq out 0), Hout.
  apply map_ext_in. intros c Hc. apply in_seq in Hc.
  unfold out. apply (conv_step_output self w' x c); try apply Hwf; [exact Hw'|lia].
Qed.

(** The bulk convolution, position by position and channel by channel. *)
Lemma bulk_conv_rows self (X : mat) :
  wf self -> (2 <= d_conv self)%nat ->
  bulk_conv self X
  = map (fun t =>
           map (fun c =>
                  silu (dot (drop t (zeros (d_conv self - 1)
                                     ++ map (fun row => nth c row 0) X
                                     ++ zeros (d_conv self - 1)))
                            (nth c (conv1d_weight self) [])
                        + nth c (conv1d_bias self) 0))
               (seq 0 (conv_dim self)))
        (seq 0 (length X)).
Proof.
  intros Hwf HK. unfold bulk_conv.
  destruct (d_conv self - 1)%nat as [|k] eqn:Ek; [lia|]. rewrite <- Ek.
  unfold slice_to_neg. rewrite Ek at 1.
  unfold transpose at 1. rewrite length_map, length_seq.
  unfold transpose at 1. rewrite firstn_map, take_seq.
  replace ((length X + 2 * (d_conv self - 1) + 1 - d_conv self - (d_conv self - 1))
             `min` (length X + 2 * (d_conv self - 1) + 1 - d_conv self))%nat
    with (length X) by lia.
  rewrite map_map. apply map_ext_in. intros t Ht. apply in_seq in Ht.
  unfold conv1d, transpose.
  rewrite (zip_with_map_seq_r _ _ _ ([], 0) (conv_dim self)).
  2:{ rewrite length_zip_with, (wf_conv_w self Hwf), (wf_conv_b self Hwf). lia. }
  rewrite !map_map. apply map_ext_in. intros c Hc. apply in_seq in Hc.
  f_equal.
  rewrite (nth_zip_with pair _ _ _ [] 0)
    by (rewrite ?(wf_conv_w self Hwf), ?(wf_conv_b self Hwf); lia).
  cbn [fst snd]. unfold conv1d_channel. cbv zeta.
  assert (Hwc : length (nth c (conv1d_weight self) []) = d_conv self).
  { apply (Forall_nth_lt _ _ c [] (wf_conv_k self Hwf)).
    rewrite (wf_conv_w self Hwf). lia. }
  rewrite (nth_map_lt _ _ _ 0%nat).
  2:{ rewrite length_seq, !length_app, !length_replicate, length_map, Hwc. lia. }
  rewrite seq_nth.
  2:{ rewrite !length_app, !length_replicate, length_map, Hwc. lia. }
  reflexivity.
Qed.

Lemma length_bulk_conv self X :
  wf self -> (2 <= d_conv self)%nat -> length (bulk_conv self X) = length X.
Proof.
  intros Hwf HK. rewrite (bulk_conv_rows self X Hwf HK).
  rewrite length_map, length_seq. reflexivity.
Qed.

Lemma bulk_conv_widths self X :
  wf self -> (2 <= d_conv self)%nat ->
  Forall (fun r => length r = conv_dim self) (bulk_conv self X).
Proof.
  intros Hwf HK. rewrite (bulk_conv_rows self X Hwf HK).
  apply Forall_forall. intros r Hin.
  apply list_elem_of_In, in_map_iff in Hin. destruct Hin as (t & <- & _).
  rewrite length_map, length_seq. reflexivity.
Qed.

(** The bulk convolution is causal, and its last position is the
    streaming step on the window of the positions before. *)
Lemma bulk_conv_snoc self (X : mat) (x : vec) :
  wf self -> (2 <= d_conv self)%nat -> length x = conv_dim self ->
  bulk_conv self (X ++ [x])
  = bulk_conv self X ++ [(conv_step self (window_after self X) x).2].
Proof.
  intros Hwf HK Hx. rewrite !(bulk_conv_rows self _ Hwf HK).
  rewrite length_app. cbn [length]. rewrite seq_app, map_app. cbn [seq map].
  f_equal.
  - apply map_ext_in. intros t Ht. apply in_seq in Ht.
    apply map_ext_in. intros c Hc. apply in_seq in Hc.
    f_equal. f_equal. rewrite map_app. cbn [map].
    apply conv_earlier_position; [lia| |rewrite length_map; lia].
    apply (Forall_nth_lt _ _ c [] (wf_conv_k self Hwf)).
    rewrite (wf_conv_w self Hwf). lia.
  - f_equal.
    rewrite (conv_step_rows self _ x Hwf (length_window_after self X) Hx).
    rewrite (window_after_snoc self X x) by (lia || exact Hx).
    apply map_ext_in. intros c Hc. apply in_seq in Hc.
    f_equal. f_equal. unfold window_after.
    rewrite (nth_map_lt _ _ _ 0%nat) by (rewrite length_seq; lia).
    rewrite seq_nth by lia. rewrite !map_app, ?length_app. cbn [map length plus].
    rewrite <- (length_map (fun row : vec => nth c row 0) X).
    rewrite Nat.add_1_r.
    apply conv_last_position; [lia|].
    apply (Forall_nth_lt _ _ c [] (wf_conv_k self Hwf)).
    rewrite (wf_conv_w self Hwf). lia.
Qed.

(** ** The bulk path, one position after the other *)

Lemma in_proj_split_lengths self h :
  wf self ->
  length (in_proj_split self h).1.1 = d_inner self
  /\ length (in_proj_split self h).1.2 = conv_dim self
  /\ length (in_proj_split self h).2 = nheads self.
Proof.
  intros Hwf. unfold in_proj_split.
  assert (Hl : length (linear (in_proj_weight self) h) = d_in_proj self).
  { unfold linear. rewrite length_map. apply Hwf. }
  rewrite Hl. unfold d_in_proj.
  replace (Z.to_nat _) with 0%nat.
  2:{ replace (Z.of_nat (2 * d_inner self + 2 * d_state self + nheads self)
               - 2 * Z.of_nat (d_inner self) - 2 * Z.of_nat (d_state self)
               - Z.of_nat (nheads self))%Z with 0%Z by lia.
      reflexivity. }
  unfold split5. cbn [fst snd]. rewrite !drop_0.
  rewrite !length_take, !length_drop, Hl. unfold d_in_proj, conv_dim. lia.
Qed.

Lemma forward_stage_item_eq self h cs ss :
  forward_stage_item self h cs ss
  = (linear (out_proj_weight self)
       (rmsnorm_gated (norm self)
          (concat (ssm_update (A_of self) (dt_bias self) (D self) ss
                     (in_proj_split self h).2
                     (scan_input self (conv_step self cs (in_proj_split self h).1.2).2
                                 (in_proj_split self h).2).1.1.1
                     (scan_input self (conv_step self cs (in_proj_split self h).1.2).2
                                 (in_proj_split self h).2).1.2
                     (scan_input self (conv_step self cs (in_proj_split self h).1.2).2
                                 (in_proj_split self h).2).2).2)
          (in_proj_split self h).1.1),
     (conv_step self cs (in_proj_split self h).1.2).1,
     (ssm_update (A_of self) (dt_bias self) (D self) ss
        (in_proj_split self h).2
        (scan_input self (conv_step self cs (in_proj_split self h).1.2).2
                    (in_proj_split self h).2).1.1.1
        (scan_input self (conv_step self cs (in_proj_split self h).1.2).2
                    (in_proj_split self h).2).1.2
        (scan_input self (conv_step self cs (in_proj_split self h).1.2).2
                    (in_proj_split self h).2).2).1).
Proof.
  unfold forward_stage_item, scan_input.
  destruct (in_proj_split self h) as [[z xBC] dt]. cbn [fst snd].
  destruct (conv_step self cs xBC) as [cs' c] eqn:Ec. cbn [fst snd].
  destruct (split3 (d_inner self) (d_state self) (d_state self) c) as [[x B] C].
  cbn [fst snd]. unfold ssm_step. cbv zeta.
  destruct (ssm_update _ _ _ ss dt _ B C) as [ss' y]. reflexivity.
Qed.

Lemma zip4_scan_input self (cv dt : mat) :
  zip (zip (zip (map (rearrange_hp (headdim self))
                     (map (fun p : vec * vec * vec => p.1.1)
                          (map (split3 (d_inner self) (d_state self) (d_state self)) cv)))
                dt)
           (map (fun p : vec * vec * vec => p.1.2)
                (map (split3 (d_inner self) (d_state self) (d_state self)) cv)))
      (map (fun p : vec * vec * vec => p.2)
           (map (split3 (d_inner self) (d_state self) (d_state self)) cv))
  = zip_with (scan_input self) cv dt.
Proof.
  revert dt. induction cv as [|c cv IH]; intros [|d dt]; simpl; try reflexivity.
  rewrite IH. reflexivity.
Qed.

Lemma scan_input_shaped self (c dt : vec) :
  wf self -> length c = conv_dim self -> length dt = nheads self ->
  input_shaped (nheads self) (headdim self) (d_state self) (scan_input self c dt).
Proof.
  intros Hwf Hc Hdt. unfold scan_input, split3, input_shaped. cbn [fst snd].
  split; [|split].
  - apply shaped2_rearrange_hp; [exact Hwf|].
    rewrite length_take, Hc. unfold conv_dim. lia.
  - exact Hdt.
  - rewrite length_take, !length_drop, Hc. unfold conv_dim. lia.
Qed.

Lemma scan_inputs_shaped self (cv dt : mat) :
  wf self ->
  Forall (fun c => length c = conv_dim self) cv ->
  Forall (fun d => length d = nheads self) dt ->
  Forall (input_shaped (nheads self) (headdim self) (d_state self))
         (zip_with (scan_input self) cv dt).
Proof.
  intros Hwf Hcv. revert dt. induction Hcv as [|c cv Hc _ IH]; intros dt Hdt;
    destruct Hdt as [|d dt Hd Hdt]; simpl; constructor.
  - apply scan_input_shaped; assumption.
  - apply IH, Hdt.
Qed.

Lemma sequential_scan_snoc A dt_bias D S steps x dt B C :
  sequential_scan A dt_bias D S (steps ++ [(x, dt, B, C)])
  = ((sequential_scan A dt_bias D S steps).1
       ++ [(ssm_update A dt_bias D (sequential_scan A dt_bias D S steps).2
              dt x B C).2],
     (ssm_update A dt_bias D (sequential_scan A dt_bias D S steps).2 dt x B C).1).
Proof.
  revert S. induction steps as [|[[[x0 dt0] B0] C0] steps IH]; intros S.
  - cbn [app sequential_scan fst snd].
    destruct (ssm_update A dt_bias D S dt x B C) as [S' y]. reflexivity.
  - cbn [app sequential_scan].
    destruct (ssm_update A dt_bias D S dt0 x0 B0 C0) as [S0 y0].
    rewrite IH.
    destruct (sequential_scan A dt_bias D S0 steps) as [ys Sf]. reflexivity.
Qed.

Lemma length_sequential_scan A dt_bias D S steps :
  length (sequential_scan A dt_bias D S steps).1 = length steps.
Proof.
  revert S. induction steps as [|[[[x dt] B] C] steps IH]; intros S; [reflexivity|].
  cbn [sequential_scan].
  destruct (ssm_update A dt_bias D S dt x B C) as [S0 y0].
  specialize (IH S0). destruct (sequential_scan A dt_bias D S0 steps) as [ys Sf].
  simpl in *. rewrite IH. reflexivity.
Qed.

(** The bulk path with its scan run sequentially. *)
Lemma forward_test_item_eq self (u : mat) :
  wf self -> (2 <= d_conv self)%nat -> (1 <= chunk_size self)%nat ->
  forward_test_item self u
  = (map (linear (out_proj_weight self))
       (zip_with (rmsnorm_gated (norm self))
          (map (fun yl : mat => concat yl)
             (sequential_scan (A_of self) (dt_bias self) (D self)
                (zeros3 (nheads self) (headdim self) (d_state self))
                (zip_with (scan_input self)
                   (bulk_conv self (map (fun p => p.1.2) (map (in_proj_split self) u)))
                   (map (fun p => p.2) (map (in_proj_split self) u)))).1)
          (map (fun p => p.1.1) (map (in_proj_split self) u))),
     window_after self (map (fun p => p.1.2) (map (in_proj_split self) u)),
     (sequential_scan (A_of self) (dt_bias self) (D self)
        (zeros3 (nheads self) (headdim self) (d_state self))
        (zip_with (scan_input self)
           (bulk_conv self (map (fun p => p.1.2) (map (in_proj_split self) u)))
           (map (fun p => p.2) (map (in_proj_split self) u)))).2).
Proof.
  intros Hwf HK Hcs. unfold forward_test_item. cbv zeta.
  rewrite <- (length_map (in_proj_split self) u).
  rewrite <- (length_map (fun p : vec * vec * vec => p.1.2)
                (map (in_proj_split self) u)).
  fold (bulk_conv self (map (fun p => p.1.2) (map (in_proj_split self) u))).
  rewrite scan_model_is_sequential.
  - rewrite zip4_scan_input.
    rewrite length_A_of, (wf_A_log self Hwf).
    destruct (sequential_scan _ _ _ _ _) as [ys Sf]. cbn [fst snd].
    rewrite (stored_window self). reflexivity.
  - exact Hcs.
  - rewrite length_A_of, (wf_A_log self Hwf). apply Hwf.
  - rewrite zip4_scan_input, length_A_of, (wf_A_log self Hwf).
    apply scan_inputs_shaped; [exact Hwf| |].
    + apply bulk_conv_widths; assumption.
    + apply Forall_forall. intros d Hin.
      apply list_elem_of_In, in_map_iff in Hin. destruct Hin as (p & <- & Hin).
      apply in_map_iff in Hin. destruct Hin as (h & <- & _).
      apply in_proj_split_lengths, Hwf.
Qed.

Lemma sequential_scan_snoc_step A dt_bias D S steps (i : mat * vec * vec * vec) :
  sequential_scan A dt_bias D S (steps ++ [i])
  = ((sequential_scan A dt_bias D S steps).1
       ++ [(ssm_update A dt_bias D (sequential_scan A dt_bias D S steps).2
              i.1.1.2 i.1.1.1 i.1.2 i.2).2],
     (ssm_update A dt_bias D (sequential_scan A dt_bias D S steps).2
        i.1.1.2 i.1.1.1 i.1.2 i.2).1).
Proof. destruct i as [[[x dt] B] C]. apply sequential_scan_snoc. Qed.

(** One more position on the bulk path is one step of the streaming
    path on the state the bulk path leaves. *)
Lemma forward_test_item_snoc self (u : mat) (h : vec) :
  wf self -> (2 <= d_conv self)%nat -> (1 <= chunk_size self)%nat ->
  forward_test_item self (u ++ [h])
  = ((forward_test_item self u).1.1
       ++ [(forward_stage_item self h (forward_test_item self u).1.2
              (forward_test_item self u).2).1.1],
     (forward_stage_item self h (forward_test_item self u).1.2
        (forward_test_item self u).2).1.2,
     (forward_stage_item self h (forward_test_item self u).1.2
        (forward_test_item self u).2).2).
Proof.
  intros Hwf HK Hcs.
  rewrite !(forward_test_item_eq self _ Hwf HK Hcs). cbn [fst snd].
  rewrite forward_stage_item_eq. cbn [fst snd].
  rewrite !map_app. cbn [map].
  destruct (in_proj_split_lengths self h Hwf) as (Hz & Hx & Hdt).
  set (P := map (in_proj_split self) u).
  set (X := map (fun p : vec * vec * vec => p.1.2) P).
  rewrite (bulk_conv_snoc self X _ Hwf HK Hx).
  rewrite zip_with_app.
  2:{ rewrite (length_bulk_conv self X Hwf HK). unfold X. rewrite !length_map.
      reflexivity. }
  cbn [zip_with].
  rewrite sequential_scan_snoc_step. cbn [fst snd].
  rewrite (window_after_snoc self X _ ltac:(lia) Hx).
  rewrite map_app, zip_with_app.
  2:{ rewrite length_map, length_sequential_scan, length_zip_with.
      rewrite (length_bulk_conv self X Hwf HK). unfold X. rewrite !length_map. lia. }
  rewrite map_app. reflexivity.
Qed.

Lemma forward_test_item_nil self :
  wf self -> (2 <= d_conv self)%nat -> (1 <= chunk_size self)%nat ->
  forward_test_item self []
  = ([], zeros2 (conv_dim self) (d_conv self),
     zeros3 (nheads self) (headdim self) (d_state self)).
Proof.
  intros Hwf HK Hcs. rewrite (forward_test_item_eq self [] Hwf HK Hcs).
  cbn [map]. rewrite window_after_nil.
  rewrite (bulk_conv_rows self [] Hwf HK). reflexivity.
Qed.

Lemma stream_item_app self cs ss u v :
  stream_item self cs ss (u ++ v)
  = ((stream_item self cs ss u).1.1
       ++ (stream_item self (stream_item self cs ss u).1.2
             (stream_item self cs ss u).2 v).1.1,
     (stream_item self (stream_item self cs ss u).1.2
        (stream_item self cs ss u).2 v).1.2,
     (stream_item self (stream_item self cs ss u).1.2
        (stream_item self cs ss u).2 v).2).
Proof.
  revert cs ss. induction u as [|h u IH]; intros cs ss.
  - cbn [app stream_item fst snd].
    destruct (stream_item self cs ss v) as [[o c] s]. reflexivity.
  - cbn [app stream_item].
    destruct (forward_stage_item self h cs ss) as [[o c] s].
    rewrite IH. destruct (stream_item self c s u) as [[os c'] s'].
    cbn [fst snd]. destruct (stream_item self c' s' v) as [[os' c''] s''].
    reflexivity.
Qed.

(** Priming on a context and stepping on is priming on the whole. *)
Lemma forward_test_item_app self (u v : mat) :
  wf self -> (2 <= d_conv self)%nat -> (1 <= chunk_size self)%nat ->
  forward_test_item self (u ++ v)
  = ((forward_test_item self u).1.1
       ++ (stream_item self (forward_test_item self u).1.2
             (forward_test_item self u).2 v).1.1,
     (stream_item self (forward_test_item self u).1.2
        (forward_test_item self u).2 v).1.2,
     (stream_item self (forward_test_item self u).1.2
        (forward_test_item self u).2 v).2).
Proof.
  intros Hwf HK Hcs. induction v as [|h v IH] using rev_ind.
  - rewrite app_nil_r. cbn [stream_item fst snd]. rewrite app_nil_r.
    destruct (forward_test_item self u) as [[o c] s]. reflexivity.
  - rewrite app_assoc, (forward_test_item_snoc self _ h Hwf HK Hcs), IH.
    cbn [fst snd]. rewrite stream_item_app. cbn [fst snd stream_item].
    destruct (stream_item self _ _ v) as [[os c] s]. cbn [fst snd].
    destruct (forward_stage_item self h c s) as [[o' c'] s']. cbn [fst snd].
    rewrite app_assoc. reflexivity.
Qed.

(** The bulk path is the streaming path from the zero state. *)
Lemma forward_test_item_is_stream self (u : mat) :
  wf self -> (2 <= d_conv self)%nat -> (1 <= chunk_size self)%nat ->
  forward_test_item self u
  = stream_item self (zeros2 (conv_dim self) (d_conv self))
      (zeros3 (nheads self) (headdim self) (d_state self)) u.
Proof.
  intros Hwf HK Hcs.
  pose proof (forward_test_item_app self [] u Hwf HK Hcs) as E.
  rewrite (forward_test_item_nil self Hwf HK Hcs) in E. cbn [app fst snd] in E.
  rewrite E. destruct (stream_item self _ _ u) as [[os c] s]. reflexivity.
Qed.

(** ** Shapes *)

Lemma length_roll_left row : length (roll_left row) = length row.
Proof. destruct row; simpl; [reflexivity|]. rewrite length_app. simpl. lia. Qed.

Lemma length_set_last row v : length (set_last row v) = length row.
Proof. unfold set_last. apply length_insert. Qed.

Lemma conv_step_window_shaped self (cs : mat) (xBC : vec) :
  shaped2 (conv_dim self) (d_conv self) cs -> length xBC = conv_dim self ->
  shaped2 (conv_dim self) (d_conv self) (conv_step self cs xBC).1.
Proof.
  intros [Hl HF] Hx. unfold conv_step. cbn [fst]. split.
  - rewrite length_zip_with, length_map. lia.
  - clear Hl Hx. revert xBC. induction HF as [|r cs Hr _ IH]; intros [|v xBC];
      cbn [map zip_with]; constructor.
    + rewrite length_set_last, length_roll_left. exact Hr.
    + apply IH.
Qed.

Lemma length_linear W x : length (linear W x) = length W.
Proof. unfold linear. apply length_map. Qed.

Lemma forward_stage_item_shapes self h (cs : mat) (ss : tensor3) :
  wf self ->
  shaped2 (conv_dim self) (d_conv self) cs ->
  shaped (nheads self) (headdim self) (d_state self) ss ->
  length (forward_stage_item self h cs ss).1.1 = length (out_proj_weight self)
  /\ shaped2 (conv_dim self) (d_conv self) (forward_stage_item self h cs ss).1.2
  /\ shaped (nheads self) (headdim self) (d_state self)
            (forward_stage_item self h cs ss).2.
Proof.
  intros Hwf Hcs Hss. rewrite forward_stage_item_eq. cbn [fst snd].
  destruct (in_proj_split_lengths self h Hwf) as (Hz & Hx & Hdt).
  split; [apply length_linear|]. split.
  - apply conv_step_window_shaped; assumption.
  - assert (Hc : length (conv_step self cs (in_proj_split self h).1.2).2
                 = conv_dim self).
    { rewrite (conv_step_rows self cs _ Hwf (proj1 Hcs) Hx).
      rewrite length_map, length_seq. reflexivity. }
    pose proof (scan_input_shaped self _ _ Hwf Hc Hdt) as Hin.
    unfold input_shaped in Hin.
    destruct (scan_input self _ _) as [[[x dt] B] C] eqn:E. cbn [fst snd].
    destruct Hin as (Hxs & Hdt' & HB).
    apply ssm_update_shaped; try assumption; try apply Hwf.
    rewrite length_A_of. apply Hwf.
Qed.

Lemma stream_item_shapes self (u cs : mat) (ss : tensor3) :
  wf self ->
  shaped2 (conv_dim self) (d_conv self) cs ->
  shaped (nheads self) (headdim self) (d_state self) ss ->
  Forall (fun o => length o = length (out_proj_weight self))
         (stream_item self cs ss u).1.1
  /\ shaped2 (conv_dim self) (d_conv self) (stream_item self cs ss u).1.2
  /\ shaped (nheads self) (headdim self) (d_state self) (stream_item self cs ss u).2.
Proof.
  intros Hwf. revert cs ss. induction u as [|h u IH]; intros cs ss Hcs Hss.
  - cbn [stream_item fst snd]. split; [constructor|]. split; assumption.
  - cbn [stream_item].
    destruct (forward_stage_item_shapes self h cs ss Hwf Hcs Hss) as (Ho & Hc' & Hs').
    destruct (forward_stage_item self h cs ss) as [[o c] s]. cbn [fst snd] in *.
    destruct (IH c s Hc' Hs') as (Hos & Hc'' & Hs'').
    destruct (stream_item self c s u) as [[os c'] s']. cbn [fst snd] in *.
    split; [constructor; assumption|]. split; assumption.
Qed.

Lemma shaped2_zeros2 a b : shaped2 a b (zeros2 a b).
Proof.
  unfold zeros2, zeros. split; [apply length_replicate|].
  apply Forall_replicate, length_replicate.
Qed.

(** ** The shape checks *)

Lemma has_shape2_true a b (m : mat) : shaped2 a b m -> has_shape2 a b m = true.
Proof.
  intros [Hl HF]. unfold has_shape2. apply andb_true_iff. split.
  - apply Nat.eqb_eq, Hl.
  - apply forallb_forall. intros r Hr. apply Nat.eqb_eq.
    rewrite Forall_forall in HF. apply HF, list_elem_of_In, Hr.
Qed.

Lemma has_shape3_true a b c (t : tensor3) : shaped a b c t -> has_shape3 a b c t = true.
Proof.
  intros [Hl HF]. unfold has_shape3. apply andb_true_iff. split.
  - apply Nat.eqb_eq, Hl.
  - apply forallb_forall. intros r Hr. apply has_shape2_true.
    rewrite Forall_forall in HF. apply HF, list_elem_of_In, Hr.
Qed.

Lemma has_shape2_shaped a b (m : mat) : has_shape2 a b m = true -> shaped2 a b m.
Proof.
  unfold has_shape2. intros H. apply andb_true_iff in H. destruct H as [Hl HF].
  split; [apply Nat.eqb_eq, Hl|].
  apply Forall_forall. intros r Hr. apply Nat.eqb_eq.
  rewrite forallb_forall in HF. apply HF, list_elem_of_In, Hr.
Qed.

Lemma in_features_ok_one self (u : mat) :
  model_width self u -> in_features_ok self [u] = true.
Proof.
  intros Hu. unfold in_features_ok. cbn [forallb]. rewrite andb_true_r.
  apply forallb_forall. intros h Hh. apply Nat.eqb_eq.
  unfold model_width in Hu. rewrite Forall_forall in Hu.
  apply Hu, list_elem_of_In, Hh.
Qed.


Lemma shape1_one (u : mat) : u <> [] -> (shape1 [u] =? 0)%nat = false.
Proof. intros Hu. apply Nat.eqb_neq. destruct u; [congruence|]. simpl. lia. Qed.

Lemma forward_test_item_shapes self (u : mat) :
  wf self -> (2 <= d_conv self)%nat -> (1 <= chunk_size self)%nat ->
  Forall (fun o => length o = length (out_proj_weight self)) (forward_test_item self u).1.1
  /\ shaped2 (conv_dim self) (d_conv self) (forward_test_item self u).1.2
  /\ shaped (nheads self) (headdim self) (d_state self) (forward_test_item self u).2.
Proof.
  intros Hwf HK Hcs.
  rewrite (forward_test_item_is_stream self u Hwf HK Hcs).
  apply stream_item_shapes; [exact Hwf|apply shaped2_zeros2|apply shaped_zeros3].
Qed.

Lemma ex_layer_wf : wf ex_layer.
Proof. split; try reflexivity. repeat constructor. Qed.


(** ** Running the two paths on one sequence *)

Lemma write_states_run self l st ip :
  layer_idx self = Some l ->
  write_states self st (Some ip)
  = (Ok tt, Some {| key_value_memory_dict := <[l := st]> (key_value_memory_dict ip) |}).
Proof. intros Hl. unfold write_states. rewrite Hl. reflexivity. Qed.

Lemma stage_item_one self h (cs : mat) (ss : tensor3) :
  shaped2 (conv_dim self) (d_conv self) cs ->
  shaped (nheads self) (headdim self) (d_state self) ss ->
  batch3 (stage_item self) [[h]] [cs] [ss]
  = Some [forward_stage_item self h cs ss].
Proof.
  intros Hcs Hss. cbn [batch3]. unfold stage_item. cbn [squeeze1 mbind option_bind].
  rewrite (has_shape2_true _ _ _ Hcs), (has_shape3_true _ _ _ _ Hss). reflexivity.
Qed.

Lemma test_item_one self (u cs : mat) (ss : tensor3) :
  shaped2 (conv_dim self) (d_conv self) cs ->
  shaped (nheads self) (headdim self) (d_state self) ss ->
  batch3 (test_item self) [u] [cs] [ss] = Some [forward_test_item self u].
Proof.
  intros Hcs Hss. cbn [batch3]. unfold test_item.
  rewrite (has_shape2_true _ _ _ Hcs), (has_shape3_true _ _ _ _ Hss). reflexivity.
Qed.

(** A step, from the entry [_get_states_from_cache] hands over. *)
Lemma forward_stage_from self l s ip1 h cs ss :
  layer_idx self = Some l ->
  (1 <= d_conv self)%nat ->
  length h = d_model self ->
  shaped2 (conv_dim self) (d_conv self) cs ->
  shaped (nheads self) (headdim self) (d_state self) ss ->
  _get_states_from_cache self 1 s = (Ok ([cs], [ss]), Some ip1) ->
  forward_stage self [[h]] s
  = (Ok [[(forward_stage_item self h cs ss).1.1]],
     Some {| key_value_memory_dict :=
               <[l := ([(forward_stage_item self h cs ss).1.2],
                       [(forward_stage_item self h cs ss).2])]>
                 (key_value_memory_dict ip1) |}).
Proof.
  intros Hl HK Hh Hcs Hss E. unfold forward_stage.
  rewrite (bind_Ok _ _ _ _ _ E).
  rewrite (in_features_ok_one self [h]) by (constructor; [exact Hh|constructor]).
  cbn [negb].
  erewrite bind_Ok by (apply write_states_run; exact Hl).
  destruct (Nat.eqb_spec (d_conv self) 0) as [|_]; [lia|].
  rewrite (stage_item_one self h cs ss Hcs Hss).
  erewrite bind_Ok by (apply write_states_run; exact Hl).
  unfold ret. cbn [map fst snd key_value_memory_dict].
  rewrite insert_insert_eq. reflexivity.
Qed.

(** A step on a cached state of batch size one. *)
Lemma forward_stage_present self l ip h cs ss :
  layer_idx self = Some l ->
  (1 <= d_conv self)%nat ->
  length h = d_model self ->
  shaped2 (conv_dim self) (d_conv self) cs ->
  shaped (nheads self) (headdim self) (d_state self) ss ->
  key_value_memory_dict ip !! l = Some ([cs], [ss]) ->
  forward_stage self [[h]] (Some ip)
  = (Ok [[(forward_stage_item self h cs ss).1.1]],
     Some {| key_value_memory_dict :=
               <[l := ([(forward_stage_item self h cs ss).1.2],
                       [(forward_stage_item self h cs ss).2])]>
                 (key_value_memory_dict ip) |}).
Proof.
  intros Hl HK Hh Hcs Hss Hs.
  apply (forward_stage_from self l (Some ip) ip h cs ss Hl HK Hh Hcs Hss).
  apply (get_states_present self 1 ip l _ Hl Hs).
Qed.

Lemma get_states_absent_one self ip l :
  wf self ->
  layer_idx self = Some l ->
  key_value_memory_dict ip !! l = None ->
  _get_states_from_cache self 1 (Some ip)
  = (Ok ([zeros2 (conv_dim self) (d_conv self)],
         [zeros3 (nheads self) (headdim self) (d_state self)]),
     Some {| key_value_memory_dict :=
               <[l := ([zeros2 (conv_dim self) (d_conv self)],
                       [zeros3 (nheads self) (headdim self) (d_state self)])]>
                 (key_value_memory_dict ip) |}).
Proof.
  intros Hwf Hl Hn. rewrite (get_states_absent self 1 ip l Hl Hn).
  rewrite (wf_conv_w self Hwf). reflexivity.
Qed.

(** A step on a layer without an entry steps from the zero state. *)
Lemma forward_stage_absent self l ip h :
  wf self ->
  layer_idx self = Some l ->
  (1 <= d_conv self)%nat ->
  length h = d_model self ->
  key_value_memory_dict ip !! l = None ->
  forward_stage self [[h]] (Some ip)
  = (Ok [[(forward_stage_item self h
             (zeros2 (conv_dim self) (d_conv self))
             (zeros3 (nheads self) (headdim self) (d_state self))).1.1]],
     Some {| key_value_memory_dict :=
               <[l := ([(forward_stage_item self h
                           (zeros2 (conv_dim self) (d_conv self))
                           (zeros3 (nheads self) (headdim self) (d_state self))).1.2],
                       [(forward_stage_item self h
                           (zeros2 (conv_dim self) (d_conv self))
                           (zeros3 (nheads self) (headdim self) (d_state self))).2])]>
                 (key_value_memory_dict ip) |}).
Proof.
  intros Hwf Hl HK Hh Hn.
  rewrite (forward_stage_from self l (Some ip) _ h _ _ Hl HK Hh
             (shaped2_zeros2 _ _) (shaped_zeros3 _ _ _)
             (get_states_absent_one self ip l Hwf Hl Hn)).
  cbn [key_value_memory_dict]. rewrite insert_insert_eq. reflexivity.
Qed.

(** A prime, from the entry [_get_states_from_cache] hands over. *)
Lemma forward_test_from self l s ip1 (u : mat) cs ss :
  layer_idx self = Some l ->
  (2 <= d_conv self)%nat ->
  u <> [] -> model_width self u ->
  shaped2 (conv_dim self) (d_conv self) cs ->
  shaped (nheads self) (headdim self) (d_state self) ss ->
  _get_states_from_cache self 1 s = (Ok ([cs], [ss]), Some ip1) ->
  forward_test self [u] s
  = (Ok [(forward_test_item self u).1.1],
     Some {| key_value_memory_dict :=
               <[l := ([(forward_test_item self u).1.2],
                       [(forward_test_item self u).2])]>
                 (key_value_memory_dict ip1) |}).
Proof.
  intros Hl HK Hne Hu Hcs Hss E. unfold forward_test.
  rewrite (bind_Ok _ _ _ _ _ E).
  rewrite (in_features_ok_one self u Hu). cbn [negb].
  rewrite (test_item_one self u cs ss Hcs Hss).
  erewrite bind_Ok by (apply write_states_run; exact Hl).
  rewrite (shape1_one u Hne).
  destruct (Nat.eqb_spec (d_conv self) 0) as [|_]; [lia|].
  destruct (Nat.eqb_spec (d_conv self) 1) as [|_]; [lia|].
  cbn [orb].
  erewrite bind_Ok by (apply write_states_run; exact Hl).
  unfold ret. cbn [map fst snd key_value_memory_dict].
  rewrite insert_insert_eq. reflexivity.
Qed.

(** Priming overwrites the cached state. *)
Lemma forward_test_present self l ip u cs ss :
  layer_idx self = Some l ->
  (2 <= d_conv self)%nat ->
  u <> [] -> model_width self u ->
  shaped2 (conv_dim self) (d_conv self) cs ->
  shaped (nheads self) (headdim self) (d_state self) ss ->
  key_value_memory_dict ip !! l = Some ([cs], [ss]) ->
  forward_test self [u] (Some ip)
  = (Ok [(forward_test_item self u).1.1],
     Some {| key_value_memory_dict :=
               <[l := ([(forward_test_item self u).1.2],
                       [(forward_test_item self u).2])]>
                 (key_value_memory_dict ip) |}).
Proof.
  intros Hl HK Hne Hu Hcs Hss Hs.
  apply (forward_test_from self l (Some ip) ip u cs ss Hl HK Hne Hu Hcs Hss).
  apply (get_states_present self 1 ip l _ Hl Hs).
Qed.

Lemma forward_test_absent self l ip u :
  wf self ->
  layer_idx self = Some l ->
  (2 <= d_conv self)%nat ->
  u <> [] -> model_width self u ->
  key_value_memory_dict ip !! l = None ->
  forward_test self [u] (Some ip)
  = (Ok [(forward_test_item self u).1.1],
     Some {| key_value_memory_dict :=
               <[l := ([(forward_test_item self u).1.2],
                       [(forward_test_item self u).2])]>
                 (key_value_memory_dict ip) |}).
Proof.
  intros Hwf Hl HK Hne Hu Hn.
  rewrite (forward_test_from self l (Some ip) _ u _ _ Hl HK Hne Hu
             (shaped2_zeros2 _ _) (shaped_zeros3 _ _ _)
             (get_states_absent_one self ip l Hwf Hl Hn)).
  cbn [key_value_memory_dict]. rewrite insert_insert_eq. reflexivity.
Qed.

Lemma forward_test_run self l ip u :
  wf self ->
  layer_idx self = Some l ->
  (2 <= d_conv self)%nat ->
  u <> [] -> model_width self u ->
  entry_ok self l ip ->
  forward_test self [u] (Some ip)
  = (Ok [(forward_test_item self u).1.1],
     Some {| key_value_memory_dict :=
               <[l := ([(forward_test_item self u).1.2],
                       [(forward_test_item self u).2])]>
                 (key_value_memory_dict ip) |}).
Proof.
  intros Hwf Hl HK Hne Hu [Hn|(st & Hs & cs & ss & -> & Hcs & Hss)].
  - apply forward_test_absent; assumption.
  - eapply forward_test_present; eassumption.
Qed.

(** ** Session states *)




(** ** Entry points *)

Lemma range_empty a : range a a = [].
Proof. unfold range. rewrite Nat.sub_diag. reflexivity. Qed.

Lemma take_shape1 (u : tensor3) :
  Forall (fun s => length s = shape1 u) u ->
  map (take (shape1 u)) u = u.
Proof.
  generalize (shape1 u) as n. intros n Hu.
  induction Hu as [|s u Hs _ IH]; simpl; [reflexivity|].
  rewrite IH. f_equal. apply firstn_all2. lia.
Qed.

(** C4.  In [forward_evaluate] the prefix is the whole input: the range
    of the step loop is empty, no step runs, and result and cache are
    those of [forward_test] on [u].  ([u] is a tensor: its sequences
    have one length.) *)
Theorem forward_evaluate_is_forward_test self (u : tensor3)
    (inference_params : option InferenceParams) :
  Forall (fun s => length s = shape1 u) u ->
  map (take (shape1 u)) u = u
  /\ range (shape1 u) (shape1 u) = []
  /\ forward_evaluate self u inference_params = forward_test self u inference_params.
Proof.
  intros Hu. split; [|split].
  - apply take_shape1, Hu.
  - apply range_empty.
  - unfold forward_evaluate. rewrite range_empty, (take_shape1 u Hu). simpl.
    apply bind_ret_r.
Qed.

Lemma forward_evaluate_is_forward_test_witness :
  forward_evaluate ex_layer [[[1]; [1]; [1]]] (Some ex_cache)
  = forward_test ex_layer [[[1]; [1]; [1]]] (Some ex_cache).
Proof.
  apply (forward_evaluate_is_forward_test ex_layer [[[1]; [1]; [1]]]).
  repeat constructor.
Defined.

Lemma get_states_from_cache_begin_witness :
  layer_idx ex_layer = Some 0%nat
  /\ key_value_memory_dict ex_cache !! 0%nat = None
  /\ (exists ip',
        _get_states_from_cache ex_layer 1 (Some ex_cache)
        = (Ok (zeros3 1 (length (conv1d_weight ex_layer)) (d_conv ex_layer),
               zeros4 1 (nheads ex_layer) (headdim ex_layer) (d_state ex_layer)),
           Some ip')
        /\ key_value_memory_dict ip' !! 0%nat
           = Some (zeros3 1 (length (conv1d_weight ex_layer)) (d_conv ex_layer),
                   zeros4 1 (nheads ex_layer) (headdim ex_layer) (d_state ex_layer))
        /\ forall l', l' <> 0%nat ->
             key_value_memory_dict ip' !! l' = key_value_memory_dict ex_cache !! l')
  /\ (forall st ip',
        _get_states_from_cache ex_layer 1 (Some ex_cache) = (Ok st, ip') ->
        _get_states_from_cache ex_layer 1 ip' = (Ok st, ip'))
  /\ _get_states_from_cache ex_layer 1 (Some ex_cache_zero)
     = (Ok ([zeros2 (conv_dim ex_layer) (d_conv ex_layer)],
            [zeros3 (nheads ex_layer) (headdim ex_layer) (d_state ex_layer)]),
        Some ex_cache_zero).
Proof.
  split; [reflexivity|]. split; [reflexivity|]. split; [|split].
  - exact (proj1 (get_states_from_cache_begin ex_layer 1 1 ex_cache 0%nat eq_refl)
             eq_refl).
  - exact (proj2 (proj2 (get_states_from_cache_begin ex_layer 1 1 ex_cache 0%nat
                           eq_refl))).
  - exact (proj1 (proj2 (get_states_from_cache_begin ex_layer 1 1 ex_cache_zero
                           0%nat eq_refl)) _ eq_refl).
Defined.

(** ** The training entry point *)

Lemma bind_call {A B} (r : result A) (k : A -> M B) s :
  bind (call r) k s
  = match r with
    | Ok a => k a s
    | Raise e => (Raise e, s)
    end.
Proof. unfold bind, call. destruct r; reflexivity. Qed.

(** C10.  [forward] hands [inference_params] to nothing.  Whatever
    [inference_params] is, [None] included, it gives back what
    [forward_train] gives on [u], a tensor or an exception, and leaves
    [inference_params] as it was; its result is the same under every
    other [inference_params]; and a call of [forward] that returns is
    invisible to whatever runs after it on the same cache, so to a
    session of [forward_test] and [forward_stage] calls around it. *)
Theorem forward_ignores_inference_params kernel self (u : tensor3)
    (inference_params : option InferenceParams) :
  forward kernel self u inference_params
  = (forward_train kernel self u, inference_params)
  /\ (forall other : option InferenceParams,
        (forward kernel self u other).1 = (forward kernel self u inference_params).1)
  /\ (forall out, forward_train kernel self u = Ok out ->
      forall (context : tensor3) (x : tensor3),
        (let* _ := forward_test self context in
         let* _ := forward kernel self u in
         forward_stage self x) inference_params
        = (let* _ := forward_test self context in
           forward_stage self x) inference_params)
  /\ (forall out, forward_train kernel self u = Ok out ->
      forall B (k : M B),
        (let* _ := forward kernel self u in k) inference_params
        = k inference_params).
Proof.
  assert (E : forall s, forward kernel self u s = (forward_train kernel self u, s)).
  { intros s. unfold forward. rewrite bind_call.
    destruct (forward_train kernel self u); reflexivity. }
  split; [apply E|]. split; [intros other; rewrite !E; reflexivity|].
  assert (K : forall out, forward_train kernel self u = Ok out ->
              forall B (k : M B) s, (let* _ := forward kernel self u in k) s = k s).
  { intros out Ho B k s. unfold bind at 1. rewrite E, Ho. reflexivity. }
  split.
  - intros out Ho context x. unfold bind at 1 3.
    destruct (forward_test self context inference_params) as [[o|e] s];
      [|reflexivity].
    apply (K out Ho).
  - intros out Ho B k. apply (K out Ho).
Qed.

(** ** Streaming through the cache *)

Lemma length_stream_item self cs ss u :
  length (stream_item self cs ss u).1.1 = length u.
Proof.
  revert cs ss. induction u as [|h u IH]; intros cs ss; [reflexivity|].
  cbn [stream_item]. destruct (forward_stage_item self h cs ss) as [[o c] s].
  specialize (IH c s). destruct (stream_item self c s u) as [[os c'] s'].
  simpl in *. rewrite IH. reflexivity.
Qed.






Lemma length_forward_test_item self u :
  wf self -> (2 <= d_conv self)%nat -> (1 <= chunk_size self)%nat ->
  length (forward_test_item self u).1.1 = length u.
Proof.
  intros Hwf HK Hcs. rewrite (forward_test_item_is_stream self u Hwf HK Hcs).
  apply length_stream_item.
Qed.

(** ** The three equivalences *)









(** ** Instances on the small layer *)

Lemma ssm_step_recurrence_witness :
  get3 (ssm_step ex_layer (zeros3 2 1 1) [1; 1] [1; 1] [1] [1]).1 0 0 0
  = get3 (zeros3 2 1 1) 0 0 0
    * exp (softplus (nth 0 [1; 1] 0 + nth 0 (dt_bias ex_layer) 0)
           * - exp (nth 0 (A_log ex_layer) 0))
    + softplus (nth 0 [1; 1] 0 + nth 0 (dt_bias ex_layer) 0)
      * (nth (0 * headdim ex_layer + 0) [1; 1] 0 * nth 0 [1] 0)
  /\ get2 (ssm_step ex_layer (zeros3 2 1 1) [1; 1] [1; 1] [1] [1]).2 0 0
     = Rsum (map (fun k =>
                    get3 (ssm_step ex_layer (zeros3 2 1 1) [1; 1] [1; 1] [1] [1]).1
                         0 0 k * nth k [1] 0)
                 (seq 0 (d_state ex_layer)))
       + nth 0 (D ex_layer) 0 * nth (0 * headdim ex_layer + 0) [1; 1] 0
  /\ shaped (nheads ex_layer) (headdim ex_layer) (d_state ex_layer)
            (ssm_step ex_layer (zeros3 2 1 1) [1; 1] [1; 1] [1] [1]).1.
Proof.
  apply (ssm_step_recurrence ex_layer (zeros3 2 1 1) [1; 1] [1; 1] [1] [1]
           0 0 0 ex_layer_wf).
  - split; [reflexivity|]. repeat constructor.
  - reflexivity.
  - reflexivity.
  - reflexivity.
  - reflexivity.
  - vm_compute. lia.
  - vm_compute. lia.
  - vm_compute. lia.
Defined.

Lemma conv_step_shifts_and_convolves_witness :
  (conv_step ex_layer (zip_with cons [0; 0; 0; 0] [[0]; [0]; [0]; [0]])
             [1; 1; 1; 1]).1
  = zip_with (fun p v => p ++ [v]) [[0]; [0]; [0]; [0]] [1; 1; 1; 1].
Proof.
  apply (conv_step_shifts_and_convolves ex_layer [0; 0; 0; 0]
           [[0]; [0]; [0]; [0]] [1; 1; 1; 1] ex_layer_wf).
  - simpl. lia.
  - reflexivity.
  - reflexivity.
  - repeat constructor.
  - reflexivity.
Defined.

(** With a kernel of width one the slice [[:, :-(d_conv - 1)]] of the
    bulk path is [[:, :-0]] and keeps nothing: the two paths are compared
    for kernels of width two and more. *)
Lemma bulk_conv_kernel_width_one self X :
  d_conv self = 1%nat -> bulk_conv self X = [].
Proof. intros HK. unfold bulk_conv. rewrite HK. reflexivity. Qed.

(** * Further properties of the layer *)

(** ** Failures before any work *)

Lemma get_states_no_layer self batch_size s :
  layer_idx self = None ->
  _get_states_from_cache self batch_size s = (Raise AssertionError, s).
Proof. intros Hl. unfold _get_states_from_cache. rewrite Hl. reflexivity. Qed.

Lemma get_states_no_params self batch_size :
  layer_idx self <> None ->
  _get_states_from_cache self batch_size None = (Raise AttributeError, None).
Proof.
  intros Hl. unfold _get_states_from_cache.
  destruct (layer_idx self); [reflexivity|congruence].
Qed.

(** X1.  The three cached paths fail before they read their input: with
    no [layer_idx] the assertion of [_get_states_from_cache] fails and
    [inference_params] stays as it was; with a [layer_idx] and
    [inference_params=None], the default of [forward_evaluate], the
    attribute access on [None] fails. *)
Theorem cached_paths_fail_early self (u : tensor3) :
  (layer_idx self = None ->
   forall inference_params,
     forward_stage self u inference_params = (Raise AssertionError, inference_params)
     /\ forward_test self u inference_params = (Raise AssertionError, inference_params)
     /\ forward_evaluate self u inference_params
        = (Raise AssertionError, inference_params))
  /\ (layer_idx self <> None ->
      forward_stage self u None = (Raise AttributeError, None)
      /\ forward_test self u None = (Raise AttributeError, None)
      /\ forward_evaluate self u None = (Raise AttributeError, None)).
Proof.
  split.
  - intros Hl s.
    assert (Ht : forall v, forward_test self v s = (Raise AssertionError, s)).
    { intros v. unfold forward_test.
      apply bind_Raise, get_states_no_layer, Hl. }
    split; [|split].
    + unfold forward_stage. apply bind_Raise, get_states_no_layer, Hl.
    + apply Ht.
    + unfold forward_evaluate. apply bind_Raise, Ht.
  - intros Hl.
    assert (Ht : forall v, forward_test self v None = (Raise AttributeError, None)).
    { intros v. unfold forward_test.
      apply bind_Raise, get_states_no_params, Hl. }
    split; [|split].
    + unfold forward_stage. apply bind_Raise, get_states_no_params, Hl.
    + apply Ht.
    + unfold forward_evaluate. apply bind_Raise, Ht.
Qed.

(** ** Other layers *)

Lemma get_states_frame self batch_size ip l l' :
  layer_idx self = Some l -> l' <> l ->
  exists st ip',
    _get_states_from_cache self batch_size (Some ip) = (Ok st, Some ip')
    /\ key_value_memory_dict ip' !! l = Some st
    /\ key_value_memory_dict ip' !! l' = key_value_memory_dict ip !! l'.
Proof.
  intros Hl Hne. destruct (key_value_memory_dict ip !! l) as [st|] eqn:E.
  - exists st, ip. rewrite (get_states_present self batch_size ip l st Hl E). auto.
  - do 2 eexists. rewrite (get_states_absent self batch_size ip l Hl E).
    split; [reflexivity|]. simpl. split.
    + apply lookup_insert_eq.
    + apply lookup_insert_ne. congruence.
Qed.

(** X2.  A call of [forward_stage] or [forward_test] with a cache
    leaves the entries of all other layers as they were, whatever the
    input and whether the call succeeds or not, and leaves an entry for
    its own layer. *)
Theorem other_layers_untouched self l l' ip (u : tensor3) :
  layer_idx self = Some l -> l' <> l ->
  (exists res ip',
     forward_stage self u (Some ip) = (res, Some ip')
     /\ is_Some (key_value_memory_dict ip' !! l)
     /\ key_value_memory_dict ip' !! l' = key_value_memory_dict ip !! l')
  /\ (exists res ip',
        forward_test self u (Some ip) = (res, Some ip')
        /\ is_Some (key_value_memory_dict ip' !! l)
        /\ key_value_memory_dict ip' !! l' = key_value_memory_dict ip !! l').
Proof.
  intros Hl Hne.
  destruct (get_states_frame self 1 ip l l' Hl Hne) as (st & ip1 & E & Hst & Hfr).
  destruct st as [cs ss].
  assert (Hw : forall st' (ip0 : InferenceParams),
             key_value_memory_dict ip0 !! l' = key_value_memory_dict ip !! l' ->
             is_Some (key_value_memory_dict
                        {| key_value_memory_dict :=
                             <[l := st']> (key_value_memory_dict ip0) |} !! l)
             /\ key_value_memory_dict
                  {| key_value_memory_dict :=
                       <[l := st']> (key_value_memory_dict ip0) |} !! l'
                = key_value_memory_dict ip !! l').
  { intros st' ip0 H0. cbn [key_value_memory_dict]. split.
    - rewrite lookup_insert_eq. eauto.
    - rewrite lookup_insert_ne by congruence. exact H0. }
  split.
  - unfold forward_stage. rewrite (bind_Ok _ _ _ _ _ E).
    destruct (in_features_ok self u); cbn [negb].
    2:{ do 2 eexists. split; [reflexivity|]. split; [eauto|exact Hfr]. }
    erewrite bind_Ok by (apply write_states_run; exact Hl).
    destruct (Hw (map (map roll_left) cs, ss) ip1 Hfr) as [Hr1 Hr2].
    destruct (d_conv self =? 0)%nat.
    { do 2 eexists. split; [reflexivity|]. split; assumption. }
    destruct (batch3 _ u cs ss) as [r|].
    + erewrite bind_Ok by (apply write_states_run; exact Hl).
      do 2 eexists. split; [reflexivity|]. apply Hw, Hr2.
    + do 2 eexists. split; [reflexivity|]. split; assumption.
  - unfold forward_test. rewrite (bind_Ok _ _ _ _ _ E).
    destruct (in_features_ok self u); cbn [negb].
    2:{ do 2 eexists. split; [reflexivity|]. split; [eauto|exact Hfr]. }
    destruct (batch3 _ u cs ss) as [r|].
    2:{ do 2 eexists. split; [reflexivity|]. split; [eauto|exact Hfr]. }
    erewrite bind_Ok by (apply write_states_run; exact Hl).
    destruct (Hw (map (fun o => o.1.2) r, ss) ip1 Hfr) as [Hr1 Hr2].
    destruct ((d_conv self =? 0)%nat || (shape1 u =? 0)%nat).
    { do 2 eexists. split; [reflexivity|]. split; assumption. }
    destruct (d_conv self =? 1)%nat.
    { do 2 eexists. split; [reflexivity|]. split; assumption. }
    erewrite bind_Ok by (apply write_states_run; exact Hl).
    do 2 eexists. split; [reflexivity|]. apply Hw, Hr2.
Qed.

Lemma other_layers_untouched_witness :
  exists res ip',
    forward_stage ex_layer [[[1]]] (Some ex_cache) = (res, Some ip')
    /\ is_Some (key_value_memory_dict ip' !! 0%nat)
    /\ key_value_memory_dict ip' !! 1%nat = key_value_memory_dict ex_cache !! 1%nat.
Proof.
  apply (other_layers_untouched ex_layer 0%nat 1%nat ex_cache [[[1]]] eq_refl).
  lia.
Defined.

(** ** Priming overwrites *)

(** X3.  Priming twice is priming once on the second context: for two
    contexts that are not empty, of vectors of the width of the model,
    and an entry that is absent or has the shapes of the layer, the state
    the first call leaves is overwritten, and output and cache are those
    of the second call alone. *)
Theorem prime_overwrites_prime self l ip (u u' : mat) :
  wf self -> (2 <= d_conv self)%nat -> (1 <= chunk_size self)%nat ->
  layer_idx self = Some l ->
  u <> [] -> model_width self u ->
  u' <> [] -> model_width self u' ->
  entry_ok self l ip ->
  (let* _ := forward_test self [u] in forward_test self [u']) (Some ip)
  = forward_test self [u'] (Some ip)
  /\ exists out ip', forward_test self [u'] (Some ip) = (Ok [out], Some ip').
Proof.
  intros Hwf HK Hcs Hl Hne Hu Hne' Hu' He.
  rewrite (bind_Ok _ _ _ _ _ (forward_test_run self l ip u Hwf Hl HK Hne Hu He)).
  rewrite (forward_test_run self l ip u' Hwf Hl HK Hne' Hu' He).
  split; [|eauto].
  destruct (forward_test_item_shapes self u Hwf HK Hcs) as (_ & Hw & Hs).
  rewrite (forward_test_present self l _ u' _ _ Hl HK Hne' Hu' Hw Hs)
    by (simpl; apply lookup_insert_eq).
  simpl. rewrite insert_insert_eq. reflexivity.
Qed.

Lemma prime_overwrites_prime_witness :
  (let* _ := forward_test ex_layer [[[1]; [1]]] in forward_test ex_layer [[[1]]])
    (Some ex_cache)
  = forward_test ex_layer [[[1]]] (Some ex_cache)
  /\ exists out ip', forward_test ex_layer [[[1]]] (Some ex_cache) = (Ok [out], Some ip').
Proof.
  apply (prime_overwrites_prime ex_layer 0%nat ex_cache [[1]; [1]] [[1]] ex_layer_wf).
  - simpl. lia.
  - simpl. lia.
  - reflexivity.
  - discriminate.
  - repeat constructor.
  - discriminate.
  - repeat constructor.
  - left. reflexivity.
Defined.

(** ** Shapes kept by the two paths *)

(** X4.  A step keeps the shapes: for a vector of the width of the model,
    on a cache whose entry for the layer is absent or has the shapes of
    the layer, [forward_stage] returns one vector of the width of the
    output projection and leaves a window of shape conv_dim x d_conv and
    a state of shape nheads x headdim x d_state. *)
Theorem forward_stage_keeps_shapes self l ip (h : vec) :
  wf self -> (1 <= d_conv self)%nat ->
  layer_idx self = Some l ->
  length h = d_model self ->
  entry_ok self l ip ->
  exists out ip' st',
    forward_stage self [[h]] (Some ip) = (Ok [[out]], Some ip')
    /\ length out = length (out_proj_weight self)
    /\ key_value_memory_dict ip' !! l = Some st'
    /\ entry_shaped self st'.
Proof.
  intros Hwf HK Hl Hh [Hn|(st & Hst & cs & ss & -> & Hcs & Hss)].
  - rewrite (forward_stage_absent self l ip h Hwf Hl HK Hh Hn).
    destruct (forward_stage_item_shapes self h _ _ Hwf
                (shaped2_zeros2 (conv_dim self) (d_conv self))
                (shaped_zeros3 (nheads self) (headdim self) (d_state self)))
      as (Ho & Hc & Hs).
    do 3 eexists. split; [reflexivity|]. split; [exact Ho|]. split.
    + simpl. apply lookup_insert_eq.
    + do 2 eexists. split; [reflexivity|]. split; assumption.
  - rewrite (forward_stage_present self l ip h cs ss Hl HK Hh Hcs Hss Hst).
    destruct (forward_stage_item_shapes self h cs ss Hwf Hcs Hss) as (Ho & Hc & Hs).
    do 3 eexists. split; [reflexivity|]. split; [exact Ho|]. split.
    + simpl. apply lookup_insert_eq.
    + do 2 eexists. split; [reflexivity|]. split; assumption.
Qed.

Lemma forward_stage_keeps_shapes_witness :
  exists out ip' st',
    forward_stage ex_layer [[[1]]] (Some ex_cache) = (Ok [[out]], Some ip')
    /\ length out = length (out_proj_weight ex_layer)
    /\ key_value_memory_dict ip' !! 0%nat = Some st'
    /\ entry_shaped ex_layer st'.
Proof.
  apply (forward_stage_keeps_shapes ex_layer 0%nat ex_cache [1] ex_layer_wf).
  - simpl. lia.
  - reflexivity.
  - reflexivity.
  - left. reflexivity.
Defined.

(** X5.  Priming gives shapes: on a sequence of [L] vectors of the width
    of the model, [L] at least 1, and a cache whose entry for the layer
    is absent or has the shapes of the layer, [forward_test] returns [L]
    vectors of the width of the output projection and leaves a window of
    shape conv_dim x d_conv and a state of shape nheads x headdim x
    d_state. *)
Theorem forward_test_shapes self l ip (u : mat) :
  wf self -> (2 <= d_conv self)%nat -> (1 <= chunk_size self)%nat ->
  layer_idx self = Some l ->
  u <> [] -> model_width self u ->
  entry_ok self l ip ->
  exists out ip' st',
    forward_test self [u] (Some ip) = (Ok [out], Some ip')
    /\ length out = length u
    /\ Forall (fun o => length o = length (out_proj_weight self)) out
    /\ key_value_memory_dict ip' !! l = Some st'
    /\ entry_shaped self st'.
Proof.
  intros Hwf HK Hcs Hl Hne Hu He.
  rewrite (forward_test_run self l ip u Hwf Hl HK Hne Hu He).
  destruct (forward_test_item_shapes self u Hwf HK Hcs) as (Ho & Hc & Hs).
  do 3 eexists. split; [reflexivity|].
  split; [apply length_forward_test_item; assumption|].
  split; [exact Ho|]. split; [simpl; apply lookup_insert_eq|].
  do 2 eexists. split; [reflexivity|]. split; assumption.
Qed.

Lemma forward_test_shapes_witness :
  exists out ip' st',
    forward_test ex_layer [[[1]; [1]; [1]]] (Some ex_cache) = (Ok [out], Some ip')
    /\ length out = length [[1]; [1]; [1]]
    /\ Forall (fun o => length o = length (out_proj_weight ex_layer)) out
    /\ key_value_memory_dict ip' !! 0%nat = Some st'
    /\ entry_shaped ex_layer st'.
Proof.
  apply (forward_test_shapes ex_layer 0%nat ex_cache [[1]; [1]; [1]] ex_layer_wf).
  - simpl. lia.
  - simpl. lia.
  - reflexivity.
  - discriminate.
  - repeat constructor.
  - left. reflexivity.
Defined.

(** ** The projection and the seeded window *)

Lemma take_drop_three {A} (a b c : nat) (v : list A) :
  length v = (a + b + c)%nat ->
  take a v ++ take b (drop a v) ++ take c (drop b (drop a v)) = v.
Proof.
  intros Hv.
  rewrite (firstn_all2 (n := c)) by (rewrite !length_drop; lia).
  rewrite (take_drop b (drop a v)). apply take_drop.
Qed.

(** X6.  For a layer with the shapes [__init__] gives, the projection of
    a vector splits without rest: the two [d_mlp] slices are empty, and
    gate, conv input and timestep logits, of widths d_inner, conv_dim
    and nheads, put end to end are the projection again. *)
Theorem in_proj_split_partition self (h : vec) :
  wf self ->
  (in_proj_split self h).1.1 ++ (in_proj_split self h).1.2 ++ (in_proj_split self h).2
  = linear (in_proj_weight self) h
  /\ length (in_proj_split self h).1.1 = d_inner self
  /\ length (in_proj_split self h).1.2 = conv_dim self
  /\ length (in_proj_split self h).2 = nheads self.
Proof.
  intros Hwf. split; [|apply in_proj_split_lengths, Hwf].
  unfold in_proj_split.
  assert (Hl : length (linear (in_proj_weight self) h) = d_in_proj self).
  { rewrite length_linear. apply Hwf. }
  rewrite Hl. unfold d_in_proj.
  replace (Z.to_nat _) with 0%nat.
  2:{ replace (Z.of_nat (2 * d_inner self + 2 * d_state self + nheads self)
               - 2 * Z.of_nat (d_inner self) - 2 * Z.of_nat (d_state self)
               - Z.of_nat (nheads self))%Z with 0%Z by lia.
      reflexivity. }
  unfold split5. cbn [fst snd]. rewrite !drop_0.
  apply take_drop_three. rewrite Hl. unfold d_in_proj. lia.
Qed.

Lemma in_proj_split_partition_witness :
  (in_proj_split ex_layer [1]).1.1 ++ (in_proj_split ex_layer [1]).1.2
    ++ (in_proj_split ex_layer [1]).2
  = linear (in_proj_weight ex_layer) [1]
  /\ length (in_proj_split ex_layer [1]).1.1 = d_inner ex_layer
  /\ length (in_proj_split ex_layer [1]).1.2 = conv_dim ex_layer
  /\ length (in_proj_split ex_layer [1]).2 = nheads ex_layer.
Proof. apply (in_proj_split_partition ex_layer [1] ex_layer_wf). Defined.

Lemma forward_test_item_window self (u : mat) :
  (forward_test_item self u).1.2
  = map (pad_left (Z.of_nat (d_conv self) - Z.of_nat (length u)))
        (transpose (conv_dim self)
           (map (fun p => p.1.2) (map (in_proj_split self) u))).
Proof.
  unfold forward_test_item. cbv zeta.
  destruct (mamba_chunk_scan_combined _ _ _ _ _ _ _ _ _ _) as [y last_state].
  reflexivity.
Qed.

(** X7.  The window [forward_test] seeds.  For channel [c], with [col]
    the conv inputs of that channel over the [L] positions of the
    context: a context of at least d_conv positions leaves the last
    d_conv inputs, a shorter one leaves d_conv - L zeros and then all its
    inputs; in both cases d_conv entries. *)
Theorem forward_test_seeds_window self (u : mat) c :
  (c < conv_dim self)%nat ->
  ((d_conv self <= length u)%nat ->
   nth c (forward_test_item self u).1.2 []
   = drop (length u - d_conv self)
       (map (fun h => nth c (in_proj_split self h).1.2 0) u))
  /\ ((length u < d_conv self)%nat ->
      nth c (forward_test_item self u).1.2 []
      = zeros (d_conv self - length u)
          ++ map (fun h => nth c (in_proj_split self h).1.2 0) u)
  /\ length (nth c (forward_test_item self u).1.2 []) = d_conv self.
Proof.
  intros Hc. rewrite forward_test_item_window. unfold transpose.
  rewrite map_map, (nth_map_lt _ _ _ 0%nat) by (rewrite length_seq; exact Hc).
  rewrite seq_nth by exact Hc. cbn [plus]. rewrite !map_map.
  set (col := map (fun h => nth c (in_proj_split self h).1.2 0) u).
  assert (Hcol : length col = length u) by (unfold col; apply length_map).
  unfold pad_left. split; [|split].
  - intros HL. destruct (Z.leb_spec 0 (Z.of_nat (d_conv self) - Z.of_nat (length u))).
    + replace (Z.to_nat _) with 0%nat by lia.
      replace (length u - d_conv self)%nat with 0%nat by lia. reflexivity.
    + f_equal. lia.
  - intros HL. destruct (Z.leb_spec 0 (Z.of_nat (d_conv self) - Z.of_nat (length u)));
      [|lia].
    unfold zeros. do 2 f_equal. lia.
  - destruct (Z.leb_spec 0 (Z.of_nat (d_conv self) - Z.of_nat (length u))).
    + rewrite length_app, length_replicate, Hcol. lia.
    + rewrite length_drop, Hcol. lia.
Qed.

Lemma forward_test_seeds_window_witness :
  length (nth 0 (forward_test_item ex_layer [[1]; [1]; [1]]).1.2 [])
  = d_conv ex_layer.
Proof.
  apply (forward_test_seeds_window ex_layer [[1]; [1]; [1]] 0).
  vm_compute. lia.
Defined.

(** ** Inputs the cached paths refuse *)

Lemma in_features_ok_wrong self (u : mat) :
  ~ model_width self u -> in_features_ok self [u] = false.
Proof.
  intros Hu. destruct (in_features_ok self [u]) eqn:E; [|reflexivity].
  exfalso. apply Hu. unfold in_features_ok in E. cbn [forallb] in E.
  rewrite andb_true_r in E. rewrite forallb_forall in E.
  apply Forall_forall. intros h Hh. apply Nat.eqb_eq, E, list_elem_of_In, Hh.
Qed.

(** X18.  What the two cached paths refuse.  A vector that is not of
    the width of the model makes [self.in_proj] fail: [forward_stage] and
    [forward_test] raise [RuntimeError] and leave the cache as
    [_get_states_from_cache] left it, the zero state allocated when the
    layer had no entry.  On an empty sequence [forward_test] raises
    [RuntimeError] too, from [self.conv1d], after it has written the
    window of the empty sequence, all zeros, next to the SSM state the
    cache had. *)
Theorem cached_paths_refuse self l ip :
  layer_idx self = Some l ->
  (forall (u : mat) st ip',
     ~ model_width self u ->
     _get_states_from_cache self 1 (Some ip) = (Ok st, ip') ->
     forward_test self [u] (Some ip) = (Raise RuntimeError, ip')
     /\ (forall h, u = [h] ->
         forward_stage self [u] (Some ip) = (Raise RuntimeError, ip')))
  /\ (forall cs ss,
        (_get_states_from_cache self 1 (Some ip)).1 = Ok ([cs], [ss]) ->
        shaped2 (conv_dim self) (d_conv self) cs ->
        shaped (nheads self) (headdim self) (d_state self) ss ->
        forward_test self [[]] (Some ip)
        = (Raise RuntimeError,
           Some {| key_value_memory_dict :=
                     <[l := ([zeros2 (conv_dim self) (d_conv self)], [ss])]>
                       (key_value_memory_dict ip) |})).
Proof.
  intros Hl. split.
  - intros u [cs ss] ip' Hu E. split.
    + unfold forward_test. rewrite (bind_Ok _ _ _ _ _ E).
      rewrite (in_features_ok_wrong self u Hu). reflexivity.
    + intros h ->. unfold forward_stage. rewrite (bind_Ok _ _ _ _ _ E).
      rewrite (in_features_ok_wrong self [h] Hu). reflexivity.
  - intros cs ss E Hcs Hss.
    destruct (_get_states_from_cache self 1 (Some ip)) as [r ip1] eqn:G.
    cbn [fst] in E. subst r.
    assert (Hip1 : exists m, ip1 = Some m
                   /\ <[l := ([zeros2 (conv_dim self) (d_conv self)], [ss])]>
                        (key_value_memory_dict m)
                      = <[l := ([zeros2 (conv_dim self) (d_conv self)], [ss])]>
                          (key_value_memory_dict ip)).
    { destruct (key_value_memory_dict ip !! l) as [st0|] eqn:L.
      - rewrite (get_states_present self 1 ip l st0 Hl L) in G.
        inversion G. eauto.
      - rewrite (get_states_absent self 1 ip l Hl L) in G.
        inversion G. eexists. split; [reflexivity|].
        cbn [key_value_memory_dict]. apply insert_insert_eq. }
    destruct Hip1 as (m & -> & Hm).
    unfold forward_test. rewrite (bind_Ok _ _ _ _ _ G).
    rewrite (in_features_ok_one self []) by constructor. cbn [negb].
    rewrite (test_item_one self [] cs ss Hcs Hss).
    erewrite bind_Ok by (apply write_states_run; exact Hl).
    cbn [shape1 length Nat.eqb]. rewrite orb_true_r.
    unfold raise. cbn [map fst snd]. rewrite forward_test_item_window.
    cbn [map length]. do 3 f_equal. rewrite <- Hm. f_equal. f_equal. f_equal.
    unfold transpose. cbn [map]. rewrite map_map. unfold zeros2, zeros.
    assert (Ez : pad_left (Z.of_nat (d_conv self) - Z.of_nat 0) []
                 = replicate (d_conv self) 0).
    { unfold pad_left.
      destruct (Z.leb_spec 0 (Z.of_nat (d_conv self) - Z.of_nat 0)); [|lia].
      rewrite app_nil_r. f_equal. lia. }
    rewrite Ez. generalize (replicate (d_conv self) 0). intros z.
    clear. generalize 0%nat. induction (conv_dim self) as [|n IH]; intros k;
      [reflexivity|].
    cbn [seq map replicate]. rewrite IH. reflexivity.
Qed.

Lemma cached_paths_refuse_witness :
  layer_idx ex_layer = Some 0%nat
  /\ (exists ip',
        forward_stage ex_layer [[[1; 2; 3]]] (Some ex_cache)
        = (Raise RuntimeError, Some ip')
        /\ key_value_memory_dict ip' !! 0%nat
           = Some (zeros3 1 (length (conv1d_weight ex_layer)) (d_conv ex_layer),
                   zeros4 1 (nheads ex_layer) (headdim ex_layer) (d_state ex_layer)))
  /\ forward_test ex_layer [[]] (Some ex_cache)
     = (Raise RuntimeError,
        Some {| key_value_memory_dict :=
                  <[0%nat := ([zeros2 (conv_dim ex_layer) (d_conv ex_layer)],
                              [zeros3 (nheads ex_layer) (headdim ex_layer)
                                      (d_state ex_layer)])]>
                    (key_value_memory_dict ex_cache) |}).
Proof.
  split; [reflexivity|]. split.
  - eexists. split.
    + refine (proj2 (proj1 (cached_paths_refuse ex_layer 0%nat ex_cache eq_refl)
                       [[1; 2; 3]] _ _ _
                       (get_states_absent ex_layer 1 ex_cache 0%nat eq_refl eq_refl))
                [1; 2; 3] eq_refl).
      intros H. apply Forall_cons_1 in H. destruct H as [H _].
      simpl in H. discriminate H.
    + simpl. apply lookup_insert_eq.
  - refine (proj2 (cached_paths_refuse ex_layer 0%nat ex_cache eq_refl)
              (zeros2 (conv_dim ex_layer) (d_conv ex_layer))
              (zeros3 (nheads ex_layer) (headdim ex_layer) (d_state ex_layer))
              _ (shaped2_zeros2 _ _) (shaped_zeros3 _ _ _)).
    rewrite (get_states_absent ex_layer 1 ex_cache 0%nat eq_refl eq_refl).
    reflexivity.
Defined.

(** * The driver of the padding simulator *)

(** ** The order of the traces *)

Lemma filter_both_permutation {A} (f : A -> bool) (l : list A) :
  List.filter f l ++ List.filter (fun x => negb (f x)) l ≡ₚ l.
Proof.
  induction l as [|x l IH]; simpl; [reflexivity|].
  destruct (f x); simpl.
  - constructor. exact IH.
  - rewrite <- Permutation_middle. constructor. exact IH.
Qed.

Lemma filter_filter_same {A} (f : A -> bool) (l : list A) :
  List.filter f (List.filter f l) = List.filter f l.
Proof.
  induction l as [|x l IH]; simpl; [reflexivity|].
  destruct (f x) eqn:E; simpl; [rewrite E, IH; reflexivity|exact IH].
Qed.

Lemma filter_filter_other {A} (f g : A -> bool) (l : list A) :
  (forall x, g x = true -> f x = false) ->
  List.filter f (List.filter g l) = [].
Proof.
  intros Hfg. induction l as [|x l IH]; simpl; [reflexivity|].
  destruct (g x) eqn:E; simpl; [rewrite (Hfg x E); exact IH|exact IH].
Qed.

Lemma lookup_filter {A} (f : A -> bool) (l : list A) i x :
  List.filter f l !! i = Some x -> f x = true.
Proof.
  intros Hi. apply list_elem_of_lookup_2, list_elem_of_In, filter_In in Hi. tauto.
Qed.

(** X10.  Every trace is simulated exactly once, the traces whose last
    path component has a dash before all others, each of the two groups
    in the order the names were found: the order of the loop of [main]
    is a permutation of the file names found; a name with a dash stands
    at a smaller position than a name without; and the names with a dash
    read off the order are those read off the names found, in the same
    order, and likewise the names without. *)
Theorem simulation_order_once (filenames : list string) :
  Wtfpad.simulation_order filenames ≡ₚ filenames
  /\ (forall (i j : nat) a b,
        Wtfpad.simulation_order filenames !! i = Some a ->
        Wtfpad.simulation_order filenames !! j = Some b ->
        Wtfpad.contains "-" (Wtfpad.fname a) = true ->
        Wtfpad.contains "-" (Wtfpad.fname b) = false ->
        (i < j)%nat)
  /\ List.filter (fun f => Wtfpad.contains "-" (Wtfpad.fname f))
        (Wtfpad.simulation_order filenames)
     = List.filter (fun f => Wtfpad.contains "-" (Wtfpad.fname f)) filenames
  /\ List.filter (fun f => negb (Wtfpad.contains "-" (Wtfpad.fname f)))
        (Wtfpad.simulation_order filenames)
     = List.filter (fun f => negb (Wtfpad.contains "-" (Wtfpad.fname f))) filenames.
Proof.
  unfold Wtfpad.simulation_order, Wtfpad.cw_filenames, Wtfpad.ow_filenames.
  set (dash := fun f => Wtfpad.contains "-" (Wtfpad.fname f)).
  split; [apply filter_both_permutation|]. split; [|split].
  - intros i j a b Hi Hj Ha Hb.
    destruct (Nat.lt_ge_cases i (length (List.filter dash filenames))) as [Hlt|Hge].
    + destruct (Nat.lt_ge_cases j (length (List.filter dash filenames)))
        as [Hlt'|Hge']; [|lia].
      rewrite lookup_app_l in Hj by exact Hlt'.
      apply lookup_filter in Hj. unfold dash in Hj. congruence.
    + rewrite lookup_app_r in Hi by exact Hge.
      apply lookup_filter in Hi. unfold dash in Hi. rewrite Ha in Hi. discriminate.
  - rewrite List.filter_app, filter_filter_same, filter_filter_other, app_nil_r;
      [reflexivity|].
    intros x Hx. apply negb_true_iff, Hx.
  - rewrite List.filter_app, filter_filter_same, (filter_filter_other _ dash); [reflexivity|].
    intros x Hx. unfold dash in Hx. rewrite Hx. reflexivity.
Qed.

(** ** The name of the output file *)

Lemma split_not_nil sep s : Wtfpad.split sep s <> [].
Proof.
  destruct s as [|c s]; simpl; [discriminate|].
  destruct (Ascii.eqb c sep); [discriminate|].
  destruct (Wtfpad.split sep s); discriminate.
Qed.

Lemma split_no_sep sep s :
  Wtfpad.contains sep s = false -> Wtfpad.split sep s = [s].
Proof.
  induction s as [|c s IH]; simpl; [reflexivity|].
  rewrite Ascii.eqb_sym. destruct (Ascii.eqb sep c) eqn:E; simpl; [discriminate|].
  intros Hs. rewrite (IH Hs). reflexivity.
Qed.

Lemma split_pieces_no_sep sep s :
  Forall (fun p => Wtfpad.contains sep p = false) (Wtfpad.split sep s).
Proof.
  induction s as [|c s IH]; simpl; [repeat constructor|].
  destruct (Ascii.eqb c sep) eqn:E.
  - constructor; [reflexivity|exact IH].
  - destruct (Wtfpad.split sep s) as [|piece rest].
    + constructor; [|constructor]. simpl. rewrite E. reflexivity.
    + apply Forall_cons in IH. destruct IH as [Hp Hr].
      constructor; [|exact Hr]. simpl. rewrite E. exact Hp.
Qed.

Lemma split_app_sep sep a b :
  Wtfpad.split sep (a +:+ String sep b) = Wtfpad.split sep a ++ Wtfpad.split sep b.
Proof.
  induction a as [|c a IH]; simpl.
  - rewrite Ascii.eqb_refl. reflexivity.
  - destruct (Ascii.eqb c sep); [rewrite IH; reflexivity|].
    rewrite IH. pose proof (split_not_nil sep a) as Hn.
    destruct (Wtfpad.split sep a) as [|piece rest]; [congruence|]. reflexivity.
Qed.

Lemma last_app_not_nil {A} (l k : list A) d :
  k <> [] -> List.last (l ++ k) d = List.last k d.
Proof.
  intros Hk. induction l as [|x l IH]; [reflexivity|].
  simpl. destruct (l ++ k) eqn:E; [|exact IH].
  destruct l; simpl in E; congruence.
Qed.

Lemma last_Forall {A} (Q : A -> Prop) (l : list A) d :
  l <> [] -> Forall Q l -> Q (List.last l d).
Proof.
  intros Hl HF. induction HF as [|x l Hx HF IH]; [congruence|].
  destruct l as [|y l]; [exact Hx|]. apply IH. discriminate.
Qed.

(** X11.  [fname] is the file's own name: it never holds a slash; a name
    without a slash is its own [fname]; and for a file [name] without a
    slash listed under any directory, as [glob] lists the traces,
    [fname] of directory, slash and name is [name], so the simulated
    trace is written under that name into the output directory. *)
Theorem fname_is_last_component :
  (forall filename, Wtfpad.contains "/" (Wtfpad.fname filename) = false)
  /\ (forall name, Wtfpad.contains "/" name = false -> Wtfpad.fname name = name)
  /\ (forall dir name,
        Wtfpad.contains "/" name = false ->
        Wtfpad.fname (dir +:+ String "/" name) = name).
Proof.
  split; [|split].
  - intros s. unfold Wtfpad.fname.
    apply (last_Forall (fun p => Wtfpad.contains "/" p = false));
      [apply split_not_nil|apply split_pieces_no_sep].
  - intros s Hs. unfold Wtfpad.fname. rewrite (split_no_sep _ _ Hs). reflexivity.
  - intros dir name Hn. unfold Wtfpad.fname.
    rewrite split_app_sep, last_app_not_nil by apply split_not_nil.
    rewrite (split_no_sep _ _ Hn). reflexivity.
Qed.

(** ** The configuration *)

(** X12.  [parse_arguments] fails with [KeyError] when the chosen
    section or the section [normal_rcv] is missing.  Otherwise every
    option of [normal_rcv] has the value of [normal_rcv] in the result,
    also when the chosen section sets it; the chosen section decides only
    the options [normal_rcv] does not have. *)
Theorem select_config_defaults_win
    (sections : gmap string (gmap string string)) (section : string) :
  match Wtfpad.select_config sections section with
  | Wtfpad.Return cfg =>
      exists config defaults,
        sections !! section = Some config
        /\ sections !! "normal_rcv"%string = Some defaults
        /\ (forall k v, defaults !! k = Some v -> cfg !! k = Some v)
        /\ (forall k, defaults !! k = None -> cfg !! k = config !! k)
        /\ (dom config ⊆ dom defaults -> cfg = defaults)
  | Wtfpad.Fail e =>
      (sections !! section = None /\ e = Wtfpad.KeyError section)
      \/ (is_Some (sections !! section)
          /\ sections !! "normal_rcv"%string = None
          /\ e = Wtfpad.KeyError "normal_rcv"%string)
  end.
Proof.
  unfold Wtfpad.select_config.
  destruct (sections !! section) as [config|] eqn:Ec; [|left; auto].
  destruct (sections !! "normal_rcv"%string) as [defaults|] eqn:Ed;
    [|right; eauto].
  exists config, defaults. split; [reflexivity|]. split; [reflexivity|].
  split; [|split].
  - intros k v Hk. apply lookup_union_Some_l, Hk.
  - intros k Hk. apply lookup_union_r, Hk.
  - intros Hdom. apply map_eq. intros k.
    destruct (defaults !! k) as [v|] eqn:Hk.
    + apply lookup_union_Some_l, Hk.
    + rewrite lookup_union_r by exact Hk.
      apply not_elem_of_dom. intros Hin. apply Hdom in Hin.
      apply elem_of_dom in Hin. rewrite Hk in Hin. destruct Hin as [? [=]].
Qed.

(** * The driver on arrays *)

(** ** Parsing a row of the array *)

Lemma parse_rows_cons r p trace :
  WtfpadNpz.parse_rows (r :: p) trace
  = if WtfpadNpz.is_padding r then WtfpadNpz.Return trace
    else if (Z.abs (WtfpadNpz.int r.2) =? 0)%Z
         then WtfpadNpz.Fail WtfpadNpz.ZeroDivisionError
         else WtfpadNpz.parse_rows p (trace ++ [WtfpadNpz.packet_of r]).
Proof. destruct r as [t l]. reflexivity. Qed.

Lemma packet_of_valid r :
  WtfpadNpz.int r.2 <> 0%Z ->
  WtfpadNpz.valid (WtfpadNpz.packet_of r)
  /\ (Packet.direction (WtfpadNpz.packet_of r) * Packet.length (WtfpadNpz.packet_of r)
      = WtfpadNpz.int r.2)%Z.
Proof.
  intros Hn. unfold WtfpadNpz.valid, WtfpadNpz.packet_of. simpl.
  set (n := WtfpadNpz.int r.2) in *.
  assert (Hd : (n / Z.abs n = 1 /\ 0 < n \/ n / Z.abs n = -1 /\ n < 0)%Z).
  { destruct (Z.lt_trichotomy n 0) as [Hlt|[Heq|Hgt]]; [|lia|].
    - right. split; [|lia]. rewrite Z.abs_neq by lia.
      replace n with (-1 * - n)%Z at 1 by lia. apply Z.div_mul. lia.
    - left. split; [|lia]. rewrite Z.abs_eq by lia. apply Z.div_same. lia. }
  split; [split; lia|]. lia.
Qed.

(** The state of the parsing loop: the rows read so far gave the trace. *)
Lemma parse_rows_result p :
  forall done trace res,
    trace = map WtfpadNpz.packet_of done ->
    Forall (fun r => WtfpadNpz.is_padding r = false /\ WtfpadNpz.int r.2 <> 0%Z) done ->
    WtfpadNpz.parse_rows p trace = WtfpadNpz.Return res ->
    exists k,
      res = map WtfpadNpz.packet_of (done ++ take k p)
      /\ Forall (fun r => WtfpadNpz.is_padding r = false /\ WtfpadNpz.int r.2 <> 0%Z)
                (done ++ take k p)
      /\ (k <= length p)%nat
      /\ (k = length p \/ exists r, p !! k = Some r /\ WtfpadNpz.is_padding r = true).
Proof.
  induction p as [|r p IH]; intros done trace res Ht Hd Hres.
  - simpl in Hres. injection Hres as <-. exists 0%nat. rewrite app_nil_r.
    repeat split; auto.
  - rewrite parse_rows_cons in Hres.
    destruct (WtfpadNpz.is_padding r) eqn:Epad.
    + injection Hres as <-. exists 0%nat. simpl. rewrite app_nil_r.
      repeat split; auto; [lia|]. right. exists r. auto.
    + destruct (Z.abs (WtfpadNpz.int r.2) =? 0)%Z eqn:Ez; [discriminate|].
      apply Z.eqb_neq in Ez.
      destruct (IH (done ++ [r]) (trace ++ [WtfpadNpz.packet_of r]) res)
        as (k & Hk1 & Hk2 & Hk3 & Hk4).
      * rewrite map_app, Ht. reflexivity.
      * apply Forall_app. split; [exact Hd|]. constructor; [|constructor].
        split; [exact Epad|lia].
      * exact Hres.
      * exists (S k). simpl. rewrite <- app_assoc in Hk1, Hk2. simpl in Hk1, Hk2.
        repeat split; auto; [lia|].
        destruct Hk4 as [->|Hk4]; [left; reflexivity|right; exact Hk4].
Qed.

(** X13.  What the parsing loop returns.  The trace holds one packet for
    each row before the first all-zero row, in order, and none for the
    rows after it; each packet has direction 1 or -1, the sign of the
    truncated signed length, and a length of at least 1, its absolute
    value, so direction times length is the truncated signed length
    again. *)
Theorem parse_returns_leading_packets (p : list (Q * Q)) trace :
  WtfpadNpz.parse p = WtfpadNpz.Return trace ->
  trace = map WtfpadNpz.packet_of (take (length trace) p)
  /\ (length trace <= length p)%nat
  /\ Forall (fun r => WtfpadNpz.is_padding r = false) (take (length trace) p)
  /\ (length trace = length p
      \/ exists r, p !! length trace = Some r /\ WtfpadNpz.is_padding r = true)
  /\ Forall WtfpadNpz.valid trace
  /\ Forall2 (fun pk r =>
                (Packet.direction pk * Packet.length pk = WtfpadNpz.int r.2)%Z)
             trace (take (length trace) p).
Proof.
  intros Hp. unfold WtfpadNpz.parse in Hp.
  destruct (parse_rows_result p [] [] trace eq_refl (List.Forall_nil _) Hp)
    as (k & Hk1 & Hk2 & Hk3 & Hk4).
  simpl in Hk1, Hk2.
  assert (Hlen : length trace = k).
  { rewrite Hk1, length_map, length_take. lia. }
  rewrite Hlen. split; [exact Hk1|]. split; [exact Hk3|].
  split; [|split; [exact Hk4|]].
  - eapply Forall_impl; [exact Hk2|]. intros r [Hr _]. exact Hr.
  - rewrite Hk1. clear Hk1 Hlen Hk3 Hk4. split.
    + induction Hk2 as [|r l [_ Hr] _ IH]; simpl; constructor; [|exact IH].
      apply packet_of_valid, Hr.
    + induction Hk2 as [|r l [_ Hr] _ IH]; simpl; constructor; [|exact IH].
      apply packet_of_valid, Hr.
Qed.

Lemma parse_returns_leading_packets_witness :
  [ {| Packet.timestamp := 1 # 2; Packet.direction := 1; Packet.length := 100 |};
    {| Packet.timestamp := 1 # 1; Packet.direction := -1; Packet.length := 50 |} ]
  = map WtfpadNpz.packet_of
        (take 2 [(1 # 2, 100 # 1); (1 # 1, (-101) # 2); (0 # 1, 0 # 1);
                 (3 # 1, 7 # 1)]%Q).
Proof.
  apply (parse_returns_leading_packets
           [(1 # 2, 100 # 1); (1 # 1, (-101) # 2); (0 # 1, 0 # 1); (3 # 1, 7 # 1)]%Q
           [ {| Packet.timestamp := 1 # 2; Packet.direction := 1;
                Packet.length := 100 |};
             {| Packet.timestamp := 1 # 1; Packet.direction := -1;
                Packet.length := 50 |} ]).
  reflexivity.
Defined.

Lemma parse_rows_stops p r q trace :
  WtfpadNpz.is_padding r = true ->
  WtfpadNpz.parse_rows (p ++ r :: q) trace = WtfpadNpz.parse_rows p trace.
Proof.
  intros Hr. revert trace. induction p as [|r0 p IH]; intros trace.
  - cbn [app]. rewrite parse_rows_cons, Hr. reflexivity.
  - cbn [app]. rewrite !parse_rows_cons.
    destruct (WtfpadNpz.is_padding r0); [reflexivity|].
    destruct (Z.abs (WtfpadNpz.int r0.2) =? 0)%Z; [reflexivity|]. apply IH.
Qed.

(** X14.  Nothing after an all-zero row is read: the rows behind it may
    be anything, the result, a trace or an error, is that of the rows
    before it. *)
Theorem parse_ignores_rows_after_padding (p q : list (Q * Q)) r :
  WtfpadNpz.is_padding r = true ->
  WtfpadNpz.parse (p ++ r :: q) = WtfpadNpz.parse p.
Proof. intros Hr. apply parse_rows_stops, Hr. Qed.

Lemma parse_ignores_rows_after_padding_witness :
  WtfpadNpz.parse ([(1 # 2, 100 # 1)] ++ (0 # 1, 0 # 1) :: [(3 # 1, 7 # 1)])%Q
  = WtfpadNpz.parse [(1 # 2, 100 # 1)]%Q.
Proof.
  apply (parse_ignores_rows_after_padding [(1 # 2, 100 # 1)]%Q [(3 # 1, 7 # 1)]%Q
           (0 # 1, 0 # 1)%Q).
  reflexivity.
Defined.

Lemma parse_rows_zero_division p r q :
  Forall (fun r => WtfpadNpz.is_padding r = false) p ->
  WtfpadNpz.is_padding r = false ->
  WtfpadNpz.int r.2 = 0%Z ->
  forall trace,
    WtfpadNpz.parse_rows (p ++ r :: q) trace
    = WtfpadNpz.Fail WtfpadNpz.ZeroDivisionError.
Proof.
  intros Hp Hr Hz. induction Hp as [|r0 p Hr0 _ IH]; intros trace.
  - cbn [app]. rewrite parse_rows_cons, Hr, Hz. reflexivity.
  - cbn [app]. rewrite parse_rows_cons, Hr0.
    destruct (Z.abs (WtfpadNpz.int r0.2) =? 0)%Z; [reflexivity|]. apply IH.
Qed.

(** X15.  A row before the padding whose signed length truncates to 0,
    a length strictly between -1 and 1 with a timestamp that is not 0 or a
    length that is not 0, makes the parsing loop fail with
    [ZeroDivisionError]. *)
Theorem parse_zero_length_fails (p q : list (Q * Q)) r :
  Forall (fun r => WtfpadNpz.is_padding r = false) p ->
  WtfpadNpz.is_padding r = false ->
  WtfpadNpz.int r.2 = 0%Z ->
  WtfpadNpz.parse (p ++ r :: q) = WtfpadNpz.Fail WtfpadNpz.ZeroDivisionError.
Proof. intros Hp Hr Hz. apply parse_rows_zero_division; assumption. Qed.

Lemma parse_zero_length_fails_witness :
  WtfpadNpz.parse ([(1 # 2, 100 # 1)] ++ (1 # 1, 1 # 2) :: [(0 # 1, 0 # 1)])%Q
  = WtfpadNpz.Fail WtfpadNpz.ZeroDivisionError.
Proof.
  apply (parse_zero_length_fails [(1 # 2, 100 # 1)]%Q [(0 # 1, 0 # 1)]%Q
           (1 # 1, 1 # 2)%Q).
  - repeat constructor.
  - reflexivity.
  - reflexivity.
Defined.

(** ** Writing a trace into the array *)

Lemma write_rows_cons pk sim i row :
  WtfpadNpz.write_rows (pk :: sim) i row
  = if (i <? length row)%nat
    then if (Z.of_nat i =? Z.of_nat (length (<[i := WtfpadNpz.stored pk]> row)) - 1)%Z
         then WtfpadNpz.Return (<[i := WtfpadNpz.stored pk]> row)
         else WtfpadNpz.write_rows sim (S i) (<[i := WtfpadNpz.stored pk]> row)
    else WtfpadNpz.Fail WtfpadNpz.IndexError.
Proof. reflexivity. Qed.

(** The loop from index [i] on, in closed form. *)
Lemma write_rows_closed sim :
  forall i row,
    (sim = [] \/ i < length row)%nat ->
    WtfpadNpz.write_rows sim i row
    = WtfpadNpz.Return
        (take i row ++ map WtfpadNpz.stored (take (length row - i) sim)
           ++ drop (i + length sim `min` (length row - i)) row).
Proof.
  induction sim as [|pk sim IH]; intros i row Hi.
  - simpl. rewrite take_nil. simpl. rewrite Nat.add_0_r, take_drop. reflexivity.
  - destruct Hi as [|Hi]; [discriminate|].
    rewrite write_rows_cons, length_insert.
    destruct (Nat.ltb_spec i (length row)) as [_|]; [|lia].
    destruct (Z.eqb_spec (Z.of_nat i) (Z.of_nat (length row) - 1)) as [Hlast|Hmore].
    + f_equal. replace (length row - i)%nat with 1%nat by lia.
      cbn [take map length]. rewrite take_0. cbn [map app].
      replace (i + S (length sim) `min` 1)%nat with (S i) by lia.
      apply insert_take_drop. lia.
    + rewrite IH by (right; rewrite length_insert; lia).
      rewrite length_insert. f_equal.
      replace (length row - i)%nat with (S (length row - S i)) by lia.
      cbn [take map length].
      rewrite drop_insert_lt by lia.
      replace (take (S i) (<[i := WtfpadNpz.stored pk]> row))
        with (take i row ++ [WtfpadNpz.stored pk]).
      2:{ rewrite (insert_take_drop row i) by lia.
          replace (S i) with (length (take i row) + 1)%nat
            by (rewrite length_take; lia).
          rewrite take_app_add. reflexivity. }
      rewrite <- app_assoc. cbn [app].
      replace (i + S (length sim) `min` S (length row - S i))%nat
        with (S i + length sim `min` (length row - S i))%nat by lia.
      reflexivity.
Qed.

Lemma write_truncates_and_pads_aux (width : nat) (simulated : list Packet.Packet) :
  (0 < width)%nat \/ simulated = [] ->
  WtfpadNpz.write width simulated
  = WtfpadNpz.Return
      (map WtfpadNpz.stored (take width simulated)
         ++ replicate (width - length simulated) (0%Q, 0%Q))
  /\ length (map WtfpadNpz.stored (take width simulated)
               ++ replicate (width - length simulated) (0%Q, 0%Q)) = width.
Proof.
  intros Hw. unfold WtfpadNpz.write. split.
  - rewrite write_rows_closed by (rewrite length_replicate; tauto).
    rewrite length_replicate, Nat.sub_0_r, take_0. cbn [app plus].
    rewrite drop_replicate. do 3 f_equal. lia.
  - rewrite length_app, length_map, length_take, length_replicate. lia.
Qed.

(** X16.  What the writing loop leaves in a row of the array.  A trace
    longer than the row is cut at the row's width, a shorter one is
    followed by the zeros the row had, and the row keeps its width; only
    a row of width 0 makes a trace that is not empty fail, with
    [IndexError]. *)
Theorem write_truncates_and_pads (width : nat) (simulated : list Packet.Packet) :
  ((0 < width)%nat \/ simulated = [] ->
   WtfpadNpz.write width simulated
   = WtfpadNpz.Return
       (map WtfpadNpz.stored (take width simulated)
          ++ replicate (width - length simulated) (0%Q, 0%Q))
   /\ length (map WtfpadNpz.stored (take width simulated)
                ++ replicate (width - length simulated) (0%Q, 0%Q)) = width)
  /\ (simulated <> [] ->
      WtfpadNpz.write 0 simulated = WtfpadNpz.Fail WtfpadNpz.IndexError).
Proof.
  split.
  - apply write_truncates_and_pads_aux.
  - intros Hs. destruct simulated as [|pk sim]; [congruence|]. reflexivity.
Qed.
